(** * pg_plugins: receiver_raw and hook_utility

    A shallow embedding of the two C modules of the repository:

    - [receiver_raw/receiver_raw.c], a background worker that receives the
      logical changes produced by [decoder_raw] over a COPY stream, applies
      them through SPI and answers keepalives with standby status updates;
    - [hook_utility/hook_utility.c], a utility hook restricting
      [DROP DATABASE].

    Fixed-width C integers are integers of [Z] with the wrap-around written
    out, buffers are lists of bytes accessed by offset, and the calls into
    PostgreSQL, libpq and the operating system are events of a trace whose
    answers come from an environment. *)

From Stdlib Require Import String.
From Stdlib Require Import ZArith List Lia Bool.
From Stdlib Require Import Strings.Byte.
Import ListNotations.
Open Scope Z_scope.

Set Implicit Arguments.

(* ===================================================================== *)
(** * C integers and bytes *)
(* ===================================================================== *)

(** Conversion to [uint32]: the value modulo 2^32. *)
Definition to_uint32 (x : Z) : Z := x mod 2 ^ 32.

(** Conversion to [uint64] (PostgreSQL's [XLogRecPtr] is a [uint64]). *)
Definition to_uint64 (x : Z) : Z := x mod 2 ^ 64.

(** Conversion to [int64]: two's complement wrap-around. *)
Definition to_int64 (x : Z) : Z := (x + 2 ^ 63) mod 2 ^ 64 - 2 ^ 63.

Definition int64_range (x : Z) : Prop := - 2 ^ 63 <= x < 2 ^ 63.

(** [Max(x, y)] of PostgreSQL's c.h: [((x) > (y) ? (x) : (y))]. *)
Definition Max (x y : Z) : Z := if x >? y then x else y.

(** The unsigned value of a byte, and the byte holding the low eight bits
    of an integer. *)
Definition byte_val (b : byte) : Z := Z.of_N (Byte.to_N b).

Definition byte_of (z : Z) : byte :=
  match Byte.of_N (Z.to_N (z mod 256)) with
  | Some b => b
  | None => x00
  end.

(** ** Host representation of a [uint32] *)

Inductive endianness : Type := BigEndian | LittleEndian.

(** The four octets of a 32-bit value, most significant first. *)
Definition octets32 (x : Z) : list byte :=
  [byte_of (Z.shiftr x 24); byte_of (Z.shiftr x 16);
   byte_of (Z.shiftr x 8); byte_of x].

(** The value of a sequence of octets read most significant first. *)
Definition value_of_octets (bs : list byte) : Z :=
  fold_left (fun acc b => acc * 256 + byte_val b) bs 0.

(** The bytes [memcpy] sees at the address of a [uint32] variable. *)
Definition store32 (host : endianness) (x : Z) : list byte :=
  match host with
  | BigEndian => octets32 x
  | LittleEndian => rev (octets32 x)
  end.

(** The [uint32] variable whose storage holds the given bytes. *)
Definition load32 (host : endianness) (bs : list byte) : Z :=
  match host with
  | BigEndian => value_of_octets bs
  | LittleEndian => value_of_octets (rev bs)
  end.

Definition bswap32 (x : Z) : Z := value_of_octets (rev (octets32 x)).

(** [htonl] and [ntohl]: the identity on a big-endian host, a byte swap on
    a little-endian one. *)
Definition htonl (host : endianness) (x : Z) : Z :=
  match host with
  | BigEndian => x
  | LittleEndian => bswap32 x
  end.

Definition ntohl (host : endianness) (x : Z) : Z := htonl host x.

(** ** Buffers *)

(** [memcpy(&dst[off], src, length src)]. *)
Definition memcpy_to (dst : list byte) (off : nat) (src : list byte)
  : list byte :=
  firstn off dst ++ src ++ skipn (off + length src) dst.

(** [memcpy(&var, &src[off], n)]: the [n] bytes at offset [off], or [None]
    when the range leaves the buffer (a read out of bounds). *)
Definition memcpy_from (src : list byte) (off n : nat) : option (list byte) :=
  if (off + n <=? length src)%nat then Some (firstn n (skipn off src))
  else None.

(* ===================================================================== *)
(** * Stream functions: [fe_sendint64] and [fe_recvint64] *)
(* ===================================================================== *)

Section Codec.

Variable host : endianness.

(** [fe_sendint64(i, &buf[off])]: converts an [int64] to network byte
    order. *)
Definition fe_sendint64 (i : Z) (buf : list byte) (off : nat) : list byte :=
  (* High order half first, since we're doing MSB-first *)
  let n32 := to_uint32 (Z.shiftr i 32) in
  let n32 := htonl host n32 in
  let buf := memcpy_to buf off (store32 host n32) in
  (* Now the low order half *)
  let n32 := to_uint32 i in
  let n32 := htonl host n32 in
  memcpy_to buf (off + 4) (store32 host n32).

(** [fe_recvint64(&buf[off])]: converts an [int64] from network byte order
    to native format. [None] when one of the two [memcpy] reads past the
    end of the buffer. *)
Definition fe_recvint64 (buf : list byte) (off : nat) : option Z :=
  match memcpy_from buf off 4 with
  | None => None
  | Some hb =>
    match memcpy_from buf (off + 4) 4 with
    | None => None
    | Some lb =>
      let h32 := ntohl host (load32 host hb) in
      let l32 := ntohl host (load32 host lb) in
      let result := h32 in
      let result := to_int64 (Z.shiftl result 32) in
      let result := Z.lor result l32 in
      Some result
    end
  end.

End Codec.

(** Big-endian layout of a 64-bit value, written independently of the
    code: the octet of weight 2^56 first, the octet of weight 2^0 last. *)
Definition be64 (x : Z) : list byte :=
  map (fun k => byte_of (x / 2 ^ (8 * k))) [7; 6; 5; 4; 3; 2; 1; 0].


(* ===================================================================== *)
(** * receiver_raw: the world of the worker *)
(* ===================================================================== *)

(** Constants of the PostgreSQL headers the worker includes. The headers
    are not part of the repository: the code is modelled over their
    values. *)
Record pg_headers : Type := {
  InvalidXLogRecPtr : Z;        (* access/xlogdefs.h *)
  SPI_OK_INSERT : Z;            (* executor/spi.h *)
  SPI_OK_UPDATE : Z;
  SPI_OK_DELETE : Z;
  WL_POSTMASTER_DEATH : Z;      (* storage/latch.h *)
  POSTGRES_EPOCH_JDATE : Z;     (* datatype/timestamp.h *)
  UNIX_EPOCH_JDATE : Z;
  SECS_PER_DAY : Z;
  USECS_PER_SEC : Z
}.

(** The values these constants have in the PostgreSQL release the worker
    was written for (9.4). *)
Definition postgres_headers : pg_headers := {|
  InvalidXLogRecPtr := 0;
  SPI_OK_INSERT := 7;
  SPI_OK_UPDATE := 9;
  SPI_OK_DELETE := 8;
  WL_POSTMASTER_DEATH := 16;
  POSTGRES_EPOCH_JDATE := 2451545;
  UNIX_EPOCH_JDATE := 2440588;
  SECS_PER_DAY := 86400;
  USECS_PER_SEC := 1000000
|}.

Inductive signal : Type := SIGHUP | SIGTERM.

(** The lines the worker writes with [ereport(LOG, ...)], with the values
    substituted into each format. *)
Inductive log_message : Type :=
| LogConfirming (write_hi write_lo flush_hi flush_lo : Z)
    (* "confirming write up to %X/%X, flush to %X/%X (slot custom_slot)" *)
| LogFeedbackFailed          (* "could not send feedback packet: %s" *)
| LogConnectionFailed        (* "Could not establish connection to remote server" *)
| LogStartFailed             (* "Could not start logical replication" *)
| LogSighup                  (* "processed SIGHUP" *)
| LogSigterm                 (* "processed SIGTERM" *)
| LogKeepaliveTooSmall (rc : Z)   (* "streaming header too small: %d" *)
| LogIncorrectHeader         (* "Incorrect streaming header" *)
| LogHeaderTooSmall          (* "Streaming header too small" *)
| LogInsert (query : list byte)   (* "INSERT received correctly: %s" *)
| LogUpdate (query : list byte)   (* "UPDATE received correctly: %s" *)
| LogDelete (query : list byte)   (* "DELETE received correctly: %s" *)
| LogApplyError (query : list byte)  (* "Error when applying change: %s" *)
| LogSelectFailed            (* "Incorrect status received... Leaving." *)
| LogConsumeFailed           (* "Data remaining on the socket... Leaving." *)
| LogStreamEnded             (* "COPY Stream has abruptly ended..." *)
| LogReceiveFailed.          (* "Failure while receiving changes..." *)

Inductive activity : Type :=
| STATE_RUNNING (query : list byte)
| STATE_IDLE.

(** The calls the worker makes into PostgreSQL, libpq and the system, in
    the order it makes them. *)
Inductive event : Type :=
| Ev_ereport (m : log_message)
| Ev_pqsignal (s : signal)
| Ev_BackgroundWorkerUnblockSignals
| Ev_BackgroundWorkerInitializeConnection
| Ev_PQconnectdb
| Ev_PQfinish
| Ev_PQexec_START_REPLICATION
| Ev_PQclear
| Ev_WaitLatch
| Ev_ResetLatch
| Ev_SetLatch
| Ev_ProcessConfigFile
| Ev_SetCurrentStatementStartTimestamp
| Ev_StartTransactionCommand
| Ev_SPI_connect
| Ev_PushActiveSnapshot
| Ev_PQgetCopyData (rc : Z)
| Ev_gettimeofday
| Ev_PQputCopyData (buffer : list byte)
| Ev_PQflush
| Ev_pgstat_report_activity (a : activity)
| Ev_SPI_execute (query : list byte)
| Ev_SPI_finish
| Ev_PopActiveSnapshot
| Ev_CommitTransactionCommand
| Ev_select (tv_sec tv_usec : Z)
| Ev_PQconsumeInput.

(** The file-level variables of receiver_raw.c that change while the
    worker runs, and the calls made so far (oldest first). *)
Record world : Type := mkWorld {
  output_written_lsn : Z;       (* XLogRecPtr, a uint64 *)
  output_fsync_lsn : Z;
  got_sigterm : bool;
  got_sighup : bool;
  trace : list event
}.

(** What the outside answers to a call, given the calls made before it. *)
Record environment : Type := {
  gettimeofday : list event -> Z * Z;            (* tv_sec, tv_usec *)
  PQputCopyData : list event -> list byte -> Z;
  PQflush : list event -> Z;
  SPI_execute : list event -> list byte -> Z
}.

(** ** Control: a state monad with the two ways of not returning *)

Inductive stop : Type :=
| ProcExit (status : Z)
    (* [proc_exit(status)] ends the process *)
| ReadOutOfBounds (index : nat).
    (* a read at this offset of a buffer that has fewer bytes: the
       behaviour of the C program is undefined from here on *)

Inductive result (A : Type) : Type :=
| Ret (a : A)
| Stop (s : stop).

Arguments Ret {A} a.
Arguments Stop {A} s.

Definition M (A : Type) : Type := world -> result A * world.

Definition ret {A : Type} (a : A) : M A := fun w => (Ret a, w).

Definition bind {A B : Type} (m : M A) (k : A -> M B) : M B :=
  fun w =>
    match m w with
    | (Ret a, w') => k a w'
    | (Stop s, w') => (Stop s, w')
    end.

Declare Scope worker_scope.
Delimit Scope worker_scope with worker.
Notation "x <- m ;; k" := (bind m (fun x => k))
  (at level 61, m at next level, right associativity) : worker_scope.
Notation "m ;; k" := (bind m (fun _ => k))
  (at level 61, right associativity) : worker_scope.
Open Scope worker_scope.

Definition gets {A : Type} (f : world -> A) : M A := fun w => (Ret (f w), w).

Definition modify (f : world -> world) : M unit := fun w => (Ret tt, f w).

Definition stop_with {A : Type} (s : stop) : M A := fun w => (Stop s, w).

Definition proc_exit {A : Type} (status : Z) : M A :=
  stop_with (ProcExit status).

(** The world after further calls. *)
Definition extend (w : world) (evs : list event) : world :=
  mkWorld (output_written_lsn w) (output_fsync_lsn w)
          (got_sigterm w) (got_sighup w) (trace w ++ evs).

Definition emit (e : event) : M unit := modify (fun w => extend w [e]).

Definition set_got_sigterm (b : bool) : M unit :=
  modify (fun w => mkWorld (output_written_lsn w) (output_fsync_lsn w)
                           b (got_sighup w) (trace w)).

Definition set_got_sighup (b : bool) : M unit :=
  modify (fun w => mkWorld (output_written_lsn w) (output_fsync_lsn w)
                           (got_sigterm w) b (trace w)).

(** ** Signal handlers *)

Definition receiver_raw_sigterm : M unit :=
  set_got_sigterm true ;; emit Ev_SetLatch.

Definition receiver_raw_sighup : M unit :=
  set_got_sighup true ;; emit Ev_SetLatch.

Definition deliver (s : signal) : M unit :=
  match s with
  | SIGHUP => receiver_raw_sighup
  | SIGTERM => receiver_raw_sigterm
  end.

Fixpoint deliver_all (l : list signal) : M unit :=
  match l with
  | [] => ret tt
  | s :: l' => deliver s ;; deliver_all l'
  end.

(** ** The position tracker: lines 325 and 326 of the keepalive branch

    [output_written_lsn = Max(walEnd, output_written_lsn);
     output_fsync_lsn = output_written_lsn;] *)
Definition observe (walEnd : Z) (w : world) : world :=
  let written := Max walEnd (output_written_lsn w) in
  mkWorld written written (got_sigterm w) (got_sighup w) (trace w).

Definition observe_all (positions : list Z) (w : world) : world :=
  fold_left (fun w p => observe p w) positions w.

(** ** C strings and buffers received from libpq *)

(** The bytes of the C string at the head of [l]: up to the first NUL. *)
Fixpoint strz (l : list byte) : list byte :=
  match l with
  | [] => []
  | b :: l' => if Byte.eqb b x00 then [] else b :: strz l'
  end.

(** The C string at [buf + off]. *)
Definition c_string (buf : list byte) (off : nat) : list byte :=
  strz (skipn off buf).

(** The buffer libpq hands out for a CopyData message of [rc] bytes: the
    message followed by a terminating zero byte. *)
Definition copybuf_of (data : list byte) : list byte := data ++ [x00].

(** [buf[pos]], a read out of bounds when the buffer is shorter. *)
Definition read_byte (buf : list byte) (pos : nat) : M byte :=
  match nth_error buf pos with
  | Some b => ret b
  | None => stop_with (ReadOutOfBounds (length buf))
  end.

(** How the inner loop's last [PQgetCopyData] ends: no data available yet
    (0), end of the COPY stream (-1), or a failure (-2). *)
Inductive copy_end : Type := CopyNoData | CopyDone | CopyFailed.

Definition copy_end_rc (e : copy_end) : Z :=
  match e with
  | CopyNoData => 0
  | CopyDone => -1
  | CopyFailed => -2
  end.

(** What happens around one pass of the outer loop: the signals delivered
    while the worker sits in [WaitLatch] and the value it returns, the
    CopyData messages [PQgetCopyData] then hands out and how it ends, and
    the signals, result, [errno == EINTR] and [PQconsumeInput] result of
    the [select] taken when there was no data. *)
Record wakeup : Type := {
  latch_signals : list signal;
  latch_rc : Z;
  copy_frames : list (list byte);
  copy_final : copy_end;
  select_signals : list signal;
  select_r : Z;
  select_eintr : bool;
  consume_rc : Z
}.

Inductive loop_ctl : Type := LoopContinue | LoopBreak.

(** The run of a session: whether [PQconnectdb] gave [CONNECTION_OK],
    whether START_REPLICATION gave [PGRES_COPY_BOTH], and the passes of
    the main loop. *)
Record session : Type := {
  connection_ok : bool;
  copy_both : bool;
  wakeups : list wakeup
}.

(** The statements of committed transactions, read off a trace: a
    statement executed through SPI belongs to the transaction opened by
    the last [StartTransactionCommand] and persists once
    [CommitTransactionCommand] is reached. *)
Fixpoint replay (evs : list event) (pending committed : list (list byte))
  : list (list byte) * list (list byte) :=
  match evs with
  | [] => (pending, committed)
  | Ev_StartTransactionCommand :: evs' => replay evs' [] committed
  | Ev_SPI_execute q :: evs' => replay evs' (pending ++ [q]) committed
  | Ev_CommitTransactionCommand :: evs' => replay evs' [] (committed ++ pending)
  | _ :: evs' => replay evs' pending committed
  end.

Definition committed_statements (evs : list event) : list (list byte) :=
  snd (replay evs [] []).

Definition is_commit (e : event) : bool :=
  match e with Ev_CommitTransactionCommand => true | _ => false end.

(* ===================================================================== *)
(** * receiver_raw: the code *)
(* ===================================================================== *)

Section Receiver.

Variable pg : pg_headers.
Variable host : endianness.
Variable env : environment.

(** The worker's variables when the library is loaded. *)
Definition initial_world : world :=
  mkWorld (InvalidXLogRecPtr pg) (InvalidXLogRecPtr pg) false false [].

(** [replybuf] and [len] of [sendFeedback] once the packet is assembled.
    The array starts uninitialised; every byte of it is written. *)
Definition feedback_packet (written fsync now : Z) : list byte * nat :=
  let replybuf := repeat x00 (1 + 8 + 8 + 8 + 8 + 1) in
  let len := 0%nat in
  let replybuf := memcpy_to replybuf len ["r"%byte] in
  let len := (len + 1)%nat in
  let replybuf := fe_sendint64 host (to_int64 written) replybuf len in (* write *)
  let len := (len + 8)%nat in
  let replybuf := fe_sendint64 host (to_int64 fsync) replybuf len in   (* flush *)
  let len := (len + 8)%nat in
  let replybuf :=
    fe_sendint64 host (to_int64 (InvalidXLogRecPtr pg)) replybuf len in (* apply *)
  let len := (len + 8)%nat in
  let replybuf := fe_sendint64 host now replybuf len in   (* sendTime *)
  let len := (len + 8)%nat in
  (* No reply requested from server *)
  let replybuf := memcpy_to replybuf len [x00] in
  let len := (len + 1)%nat in
  (replybuf, len).

(** The bytes [PQputCopyData(conn, replybuf, len)] is given. *)
Definition feedback_message (written fsync now : Z) : list byte :=
  let '(replybuf, len) := feedback_packet written fsync now in
  firstn len replybuf.

(** [sendFeedback(conn, now)]: send a Standby Status Update message to the
    server. *)
Definition sendFeedback (now : Z) : M bool :=
  written <- gets output_written_lsn ;;
  fsync <- gets output_fsync_lsn ;;
  emit (Ev_ereport (LogConfirming
                      (to_uint32 (Z.shiftr written 32)) (to_uint32 written)
                      (to_uint32 (Z.shiftr fsync 32)) (to_uint32 fsync))) ;;
  let message := feedback_message written fsync now in
  h <- gets trace ;;
  emit (Ev_PQputCopyData message) ;;
  if PQputCopyData env h message <=? 0 then
    emit (Ev_ereport LogFeedbackFailed) ;; ret false
  else
    h <- gets trace ;;
    emit Ev_PQflush ;;
    if negb (PQflush env h =? 0) then
      emit (Ev_ereport LogFeedbackFailed) ;; ret false
    else ret true.

(** The arithmetic of [feGetCurrentTimestamp] on the [struct timeval]
    filled in by [gettimeofday]. *)
Definition timestamp_of_timeval (tp : Z * Z) : Z :=
  let '(tv_sec, tv_usec) := tp in
  let result :=
    to_int64 (tv_sec -
              (POSTGRES_EPOCH_JDATE pg - UNIX_EPOCH_JDATE pg) * SECS_PER_DAY pg) in
  let result := to_int64 (result * USECS_PER_SEC pg + tv_usec) in
  result.

Definition feGetCurrentTimestamp : M Z :=
  h <- gets trace ;;
  emit Ev_gettimeofday ;;
  ret (timestamp_of_timeval (gettimeofday env h)).

(** [feTimestampDifference]: the pair [( *secs, *microsecs )]. *)
Definition feTimestampDifference (start_time stop_time : Z) : Z * Z :=
  let diff := to_int64 (stop_time - start_time) in
  if diff <=? 0 then (0, 0)
  else (Z.quot diff (USECS_PER_SEC pg), Z.rem diff (USECS_PER_SEC pg)).

(** [fe_recvint64(&copybuf[pos])] on a received buffer. *)
Definition recvint64 (copybuf : list byte) (pos : nat) : M Z :=
  match fe_recvint64 host copybuf pos with
  | Some v => ret v
  | None => stop_with (ReadOutOfBounds (length copybuf))
  end.

(** The branch [if (copybuf[0] == 'k')] of the inner loop. *)
Definition keepalive (rc : Z) (copybuf : list byte) : M unit :=
  let pos := 1%nat in    (* skip msgtype 'k' *)
  walEnd <- recvint64 copybuf pos ;;
  let walEnd := to_uint64 walEnd in
  modify (observe walEnd) ;;
  let pos := (pos + 8)%nat in   (* read walEnd *)
  let pos := (pos + 8)%nat in   (* skip sendTime *)
  if rc <? Z.of_nat pos + 1 then
    emit (Ev_ereport (LogKeepaliveTooSmall rc)) ;;
    proc_exit 1
  else
    replyRequested <- read_byte copybuf pos ;;
    (* If the server requested an immediate reply, send one. *)
    if negb (Byte.eqb replyRequested x00) then
      now <- feGetCurrentTimestamp ;;
      (* Leave is feedback is not sent properly *)
      sent <- sendFeedback now ;;
      if negb sent then proc_exit 1 else ret tt
    else ret tt.

(** The code after the two tag tests of the inner loop: fetch the data and
    apply the change. *)
Definition waldata (rc : Z) (copybuf : list byte) : M unit :=
  let hdr_len := 1%nat in              (* msgtype 'w' *)
  let hdr_len := (hdr_len + 8)%nat in  (* dataStart *)
  let hdr_len := (hdr_len + 8)%nat in  (* walEnd *)
  let hdr_len := (hdr_len + 8)%nat in  (* sendTime *)
  if rc <? Z.of_nat hdr_len + 1 then
    emit (Ev_ereport LogHeaderTooSmall) ;;
    proc_exit 1
  else
    (* Apply change to database *)
    let query := c_string copybuf hdr_len in
    emit (Ev_pgstat_report_activity (STATE_RUNNING query)) ;;
    emit Ev_SetCurrentStatementStartTimestamp ;;
    (* Execute query *)
    h <- gets trace ;;
    emit (Ev_SPI_execute query) ;;
    let rc := SPI_execute env h query in
    if rc =? SPI_OK_INSERT pg then emit (Ev_ereport (LogInsert query))
    else if rc =? SPI_OK_UPDATE pg then emit (Ev_ereport (LogUpdate query))
    else if rc =? SPI_OK_DELETE pg then emit (Ev_ereport (LogDelete query))
    else emit (Ev_ereport (LogApplyError query)).

(** The body of the inner loop once [PQgetCopyData] returned [rc > 0]. *)
Definition process_message (rc : Z) (copybuf : list byte) : M unit :=
  tag <- read_byte copybuf 0 ;;
  if Byte.eqb tag "k" then keepalive rc copybuf
  else if negb (Byte.eqb tag "w") then
    emit (Ev_ereport LogIncorrectHeader) ;;
    proc_exit 1
  else waldata rc copybuf.

(** The inner loop [while (true)]: returns the [rc] it broke with. *)
Fixpoint receive_loop (frames : list (list byte)) (final : copy_end) : M Z :=
  match frames with
  | [] =>
    let rc := copy_end_rc final in
    emit (Ev_PQgetCopyData rc) ;; ret rc
  | data :: frames' =>
    let rc := Z.of_nat (length data) in
    emit (Ev_PQgetCopyData rc) ;;
    if rc <=? 0 then ret rc
    else
      process_message rc (copybuf_of data) ;;
      receive_loop frames' final
  end.

(** One drain cycle: the transaction is begun, the inner loop runs, and
    the transaction is committed. Returns the inner loop's last [rc]. *)
Definition drain_cycle (frames : list (list byte)) (final : copy_end) : M Z :=
  emit Ev_SetCurrentStatementStartTimestamp ;;
  emit Ev_StartTransactionCommand ;;
  emit Ev_SPI_connect ;;
  emit Ev_PushActiveSnapshot ;;
  (* Receive data. *)
  rc <- receive_loop frames final ;;
  (* Finish process *)
  emit Ev_SPI_finish ;;
  emit Ev_PopActiveSnapshot ;;
  emit Ev_CommitTransactionCommand ;;
  emit (Ev_pgstat_report_activity STATE_IDLE) ;;
  ret rc.

(** The block [if (rc == 0)]: no data, block on the socket. *)
Definition wait_for_data (wk : wakeup) : M loop_ctl :=
  let message_target := 0 in
  let fsync_target := 0 in
  (* Now compute when to wakeup. *)
  let targettime := message_target in
  let targettime :=
    if (fsync_target >? 0) && (fsync_target <? targettime)
    then fsync_target else targettime in
  now <- feGetCurrentTimestamp ;;
  let '(secs, usecs) := feTimestampDifference now targettime in
  let tv_sec := if secs <=? 0 then 1 (* Always sleep at least 1 sec *)
                else secs in
  let tv_usec := usecs in
  emit (Ev_select tv_sec tv_usec) ;;
  deliver_all (select_signals wk) ;;
  let r := select_r wk in
  if (r =? 0) || ((r <? 0) && select_eintr wk) then
    (* Got a timeout or signal. *)
    ret LoopContinue
  else if r <? 0 then
    emit (Ev_ereport LogSelectFailed) ;;
    proc_exit 1
  else
    (* Else there is actually data on the socket *)
    emit Ev_PQconsumeInput ;;
    if consume_rc wk =? 0 then
      emit (Ev_ereport LogConsumeFailed) ;;
      proc_exit 1
    else ret LoopContinue.

(** The body of the outer loop [while (!got_sigterm)]. *)
Definition main_iteration (wk : wakeup) : M loop_ctl :=
  (* Wait necessary amount of time *)
  emit Ev_WaitLatch ;;
  deliver_all (latch_signals wk) ;;
  let rc := latch_rc wk in
  emit Ev_ResetLatch ;;
  (* Process signals *)
  hup <- gets got_sighup ;;
  (if hup then
     emit Ev_ProcessConfigFile ;;
     set_got_sighup false ;;
     emit (Ev_ereport LogSighup)
   else ret tt) ;;
  term <- gets got_sigterm ;;
  if term then
    (* Simply exit *)
    emit (Ev_ereport LogSigterm) ;;
    proc_exit 0
  else if negb (Z.land rc (WL_POSTMASTER_DEATH pg) =? 0) then
    (* Emergency bailout if postmaster has died *)
    proc_exit 1
  else
    rc <- drain_cycle (copy_frames wk) (copy_final wk) ;;
    if rc =? 0 then
      (* No data, move to next loop *)
      wait_for_data wk
    else if rc =? -1 then
      (* End of copy stream *)
      emit (Ev_ereport LogStreamEnded) ;;
      ret LoopBreak
    else if rc =? -2 then
      (* Failure when reading copy stream, leave *)
      emit (Ev_ereport LogReceiveFailed) ;;
      proc_exit 1
    else ret LoopContinue.

(** The outer loop over the passes of a script, and the [proc_exit(0)]
    after it. A script that ends with the worker still looping returns. *)
Fixpoint main_loop (script : list wakeup) : M unit :=
  term <- gets got_sigterm ;;
  if term then proc_exit 0   (* No problems, so clean exit *)
  else
    match script with
    | [] => ret tt
    | wk :: script' =>
      ctl <- main_iteration wk ;;
      match ctl with
      | LoopContinue => main_loop script'
      | LoopBreak => proc_exit 0   (* No problems, so clean exit *)
      end
    end.

(** [receiver_raw_main]. *)
Definition receiver_raw_main (s : session) : M unit :=
  (* Register functions for SIGTERM/SIGHUP management *)
  emit (Ev_pqsignal SIGHUP) ;;
  emit (Ev_pqsignal SIGTERM) ;;
  (* We're now ready to receive signals *)
  emit Ev_BackgroundWorkerUnblockSignals ;;
  (* Connect to a database *)
  emit Ev_BackgroundWorkerInitializeConnection ;;
  (* Establish connection to remote server *)
  emit Ev_PQconnectdb ;;
  if negb (connection_ok s) then
    emit Ev_PQfinish ;;
    emit (Ev_ereport LogConnectionFailed) ;;
    proc_exit 1
  else
    (* Start logical replication at specified position *)
    emit Ev_PQexec_START_REPLICATION ;;
    if negb (copy_both s) then
      emit Ev_PQclear ;;
      emit (Ev_ereport LogStartFailed) ;;
      proc_exit 1
    else
      emit Ev_PQclear ;;
      main_loop (wakeups s).

End Receiver.

(* ===================================================================== *)
(** * Properties of runs *)
(* ===================================================================== *)

(** Whatever the world it starts from, the action only appends calls
    satisfying [P] to the trace, and when it does not return it stops in a
    way satisfying [Q]. *)
Definition behaves {A : Type} (P : event -> Prop) (Q : stop -> Prop)
  (m : M A) : Prop :=
  forall w,
    (exists evs, trace (snd (m w)) = trace w ++ evs /\ Forall P evs) /\
    (forall s, fst (m w) = Stop s -> Q s).

Definition not_commit (e : event) : Prop := is_commit e = false.

(** A stop inside a drain cycle: a process exit has status 1. *)
Definition fatal_stop (s : stop) : Prop :=
  match s with
  | ProcExit status => status = 1
  | ReadOutOfBounds _ => True
  end.

(** The calls of a keepalive answer after the packet is handed to libpq:
    neither a commit, nor a statement, nor the next [PQgetCopyData]. *)
Definition feedback_tail (e : event) : Prop :=
  match e with
  | Ev_PQflush | Ev_ereport LogFeedbackFailed => True
  | _ => False
  end.

(** The calls that open the transaction of a drain cycle, and those that
    close it. *)
Definition cycle_prologue : list event :=
  [Ev_SetCurrentStatementStartTimestamp; Ev_StartTransactionCommand;
   Ev_SPI_connect; Ev_PushActiveSnapshot].

Definition cycle_epilogue : list event :=
  [Ev_SPI_finish; Ev_PopActiveSnapshot; Ev_CommitTransactionCommand;
   Ev_pgstat_report_activity STATE_IDLE].

(** An environment for concrete runs: the clock shows the given time,
    every packet is accepted and flushed, and [SPI_execute] answers with
    the given code. *)
Definition fixed_env (tv_sec tv_usec spi_rc : Z) : environment := {|
  gettimeofday := fun _ => (tv_sec, tv_usec);
  PQputCopyData := fun _ _ => 1;
  PQflush := fun _ => 0;
  SPI_execute := fun _ _ => spi_rc
|}.

Definition is_SPI_execute (e : event) : bool :=
  match e with Ev_SPI_execute _ => true | _ => false end.

(** An environment in which a statement succeeds as an INSERT the first
    time anything is executed and fails (-1) from then on, as a second
    insertion of the same key does. *)
Definition insert_once_env : environment := {|
  gettimeofday := fun _ => (0, 0);
  PQputCopyData := fun _ _ => 1;
  PQflush := fun _ => 0;
  SPI_execute := fun h _ => if existsb is_SPI_execute h then -1 else 7
|}.

(* ===================================================================== *)
(** * hook_utility: the utility hook restricting DROP DATABASE *)
(* ===================================================================== *)

Module HookUtility.

(** [strcmp] on C strings: zero exactly on equal strings. *)
Definition strcmp (a b : string) : Z :=
  match String.compare a b with
  | Eq => 0
  | Lt => -1
  | Gt => 1
  end.

Inductive NodeTag : Type :=
| T_DropdbStmt
| T_other (tag : nat).    (* the tag of any other node type *)

Record DropdbStmt : Type := {
  dbname : string;
  missing_ok : bool
}.

(** The utility statement of a planned statement: a [DropdbStmt], or a
    node of another type. *)
Inductive Node : Type :=
| Node_DropdbStmt (stmt : DropdbStmt)
| Node_other (tag : nat).

Definition nodeTag (n : Node) : NodeTag :=
  match n with
  | Node_DropdbStmt _ => T_DropdbStmt
  | Node_other t => T_other t
  end.

(** The file-level variables of hook_utility.c: the two parameters and
    whether a previous hook was installed when the module was loaded. *)
Record hook_state : Type := {
  hook_dbname : string;
  hook_username : string;
  prev_utility_hook : bool       (* [true] when not NULL *)
}.

Inductive errcode : Type := ERRCODE_INSUFFICIENT_PRIVILEGE.

(** How a call of the hook ends: [ereport(ERROR, ...)] does not return;
    otherwise the hook ends in the call of the previous hook or of
    [standard_ProcessUtility], with the arguments it received. *)
Inductive hook_outcome : Type :=
| Ereport_ERROR (code : errcode) (username database : string)
    (* "Only super-superuser \"%s\" can drop database \"%s\"" *)
| Call_prev_utility_hook
| Call_standard_ProcessUtility.

(** The end of [dbrestrict_utility]: fallback to normal process, be it the
    previous hook loaded or the in-core code path if the previous hook
    does not exist. *)
Definition fallback (st : hook_state) : hook_outcome :=
  if prev_utility_hook st then Call_prev_utility_hook
  else Call_standard_ProcessUtility.

(** [dbrestrict_utility], on the utility statement of [pstmt] and the
    name [GetUserNameFromId(GetUserId(), false)] of the current user. *)
Definition dbrestrict_utility (st : hook_state) (parsetree : Node)
  (username : string) : hook_outcome :=
  (* Do our custom process on drop database *)
  match parsetree with
  | Node_DropdbStmt stmt =>
    (* Check that only the authorized superuser foo can drop the database
       undroppable_foodb. *)
    if (strcmp (dbname stmt) (hook_dbname st) =? 0) &&
       negb (strcmp username (hook_username st) =? 0)
    then Ereport_ERROR ERRCODE_INSUFFICIENT_PRIVILEGE
                       (hook_username st) (hook_dbname st)
    else fallback st
  | Node_other _ => fallback st
  end.

(** The predicate the specification gives for the hook,
    [isRestricted(statementKind, targetName, currentUser)]: the statement
    is a DROP DATABASE, it names the restricted database, and the current
    user is not the authorized one. *)
Inductive statement_kind : Type := DropDatabase | OtherStatement.

Definition isRestricted (st : hook_state) (statementKind : statement_kind)
  (targetName currentUser : string) : bool :=
  match statementKind with
  | DropDatabase =>
    String.eqb targetName (hook_dbname st) &&
    negb (String.eqb currentUser (hook_username st))
  | OtherStatement => false
  end.

(** The kind of a utility statement and the database it names. *)
Definition statement_of (n : Node) : statement_kind * string :=
  match n with
  | Node_DropdbStmt stmt => (DropDatabase, dbname stmt)
  | Node_other _ => (OtherStatement, EmptyString)
  end.

Definition raises_error (o : hook_outcome) : Prop :=
  match o with
  | Ereport_ERROR _ _ _ => True
  | _ => False
  end.

End HookUtility.

(* ===================================================================== *)
(** * Further properties of runs *)
(* ===================================================================== *)

(** Whatever the world it starts from, the action leaves a world related
    to it by [R]. *)
Definition keeps {A : Type} (R : world -> world -> Prop) (m : M A) : Prop :=
  forall w, R w (snd (m w)).

(** The written position has not gone back, and a flushed position equal
    to the written one still is. *)
Definition positions_advance (w w' : world) : Prop :=
  output_written_lsn w <= output_written_lsn w' /\
  (output_fsync_lsn w = output_written_lsn w ->
   output_fsync_lsn w' = output_written_lsn w').

(** The calls made while one message is handled. *)
Definition message_event (e : event) : Prop :=
  match e with
  | Ev_ereport _ | Ev_gettimeofday | Ev_PQputCopyData _ | Ev_PQflush
  | Ev_pgstat_report_activity _ | Ev_SetCurrentStatementStartTimestamp
  | Ev_SPI_execute _ => True
  | _ => False
  end.

(** The calls made by the inner loop: those of its messages and its own
    [PQgetCopyData]. *)
Definition loop_event (e : event) : Prop :=
  match e with
  | Ev_PQgetCopyData _ => True
  | _ => message_event e
  end.

(** The calls of the main loop outside a drain cycle. *)
Definition outer_event (e : event) : Prop :=
  match e with
  | Ev_ereport _ | Ev_WaitLatch | Ev_ResetLatch | Ev_SetLatch
  | Ev_ProcessConfigFile | Ev_gettimeofday | Ev_select _ _
  | Ev_PQconsumeInput => True
  | _ => False
  end.

Definition is_sigterm (s : signal) : bool :=
  match s with SIGTERM => true | SIGHUP => false end.

Definition is_sighup (s : signal) : bool :=
  match s with SIGHUP => true | SIGTERM => false end.

(** The calls of a pass from [WaitLatch] to the test of [got_sigterm]:
    one [SetLatch] per signal delivered while waiting, and the reload of
    the configuration when a SIGHUP is pending. *)
Definition wake_events (signals : list signal) (sighup : bool) : list event :=
  [Ev_WaitLatch] ++ repeat Ev_SetLatch (length signals) ++ [Ev_ResetLatch] ++
  (if sighup then [Ev_ProcessConfigFile; Ev_ereport LogSighup] else []).

(** The world of a pass when it tests [got_sigterm]: the signals
    delivered while waiting have set their flags, and a pending SIGHUP has
    been processed. *)
Definition after_wake (wk : wakeup) (w : world) : world :=
  let sighup := got_sighup w || existsb is_sighup (latch_signals wk) in
  let sigterm := got_sigterm w || existsb is_sigterm (latch_signals wk) in
  mkWorld (output_written_lsn w) (output_fsync_lsn w) sigterm false
          (trace w ++ wake_events (latch_signals wk) sighup).

(** The calls a session makes when it fails before its main loop. *)
Definition startup_event (e : event) : Prop :=
  match e with
  | Ev_pqsignal _ | Ev_BackgroundWorkerUnblockSignals
  | Ev_BackgroundWorkerInitializeConnection | Ev_PQconnectdb | Ev_PQfinish
  | Ev_PQexec_START_REPLICATION | Ev_PQclear | Ev_ereport _ => True
  | _ => False
  end.

(** The part of [wait_for_data] from the [select] on, for the timeout it
    has computed. *)
Definition wait_from_select (wk : wakeup) (tv_sec tv_usec : Z) : M loop_ctl :=
  emit (Ev_select tv_sec tv_usec) ;;
  deliver_all (select_signals wk) ;;
  let r := select_r wk in
  if (r =? 0) || ((r <? 0) && select_eintr wk) then ret LoopContinue
  else if r <? 0 then
    emit (Ev_ereport LogSelectFailed) ;;
    proc_exit 1
  else
    emit Ev_PQconsumeInput ;;
    if consume_rc wk =? 0 then
      emit (Ev_ereport LogConsumeFailed) ;;
      proc_exit 1
    else ret LoopContinue.

(** Every [select] is given a timeout satisfying [S]. *)
Definition select_with (S : Z -> Z -> Prop) (e : event) : Prop :=
  match e with
  | Ev_select tv_sec tv_usec => S tv_sec tv_usec
  | _ => True
  end.

(** A timeout of at least one second, with a valid microsecond part. *)
Definition at_least_a_second (tv_sec tv_usec : Z) : Prop :=
  1 <= tv_sec /\ 0 <= tv_usec < 1000000.

(** A timeout of exactly one second. *)
Definition one_second (tv_sec tv_usec : Z) : Prop :=
  tv_sec = 1 /\ tv_usec = 0.

Definition any_stop (s : stop) : Prop := True.

(** The results of the [PQgetCopyData] calls of a trace, in order. *)
Fixpoint copy_reads (evs : list event) : list Z :=
  match evs with
  | [] => []
  | Ev_PQgetCopyData rc :: evs' => rc :: copy_reads evs'
  | _ :: evs' => copy_reads evs'
  end.

(** The statements given to [SPI_execute] in a trace, in order. *)
Fixpoint statements (evs : list event) : list (list byte) :=
  match evs with
  | [] => []
  | Ev_SPI_execute q :: evs' => q :: statements evs'
  | _ :: evs' => statements evs'
  end.

(** The statements executed between two worlds of one run. *)
Definition statements_since (w w' : world) : list (list byte) :=
  statements (skipn (length (trace w)) (trace w')).

(** The statement text of a WalData message: the C string after its
    25-byte header. *)
Definition statement_of_message (data : list byte) : list byte :=
  c_string (copybuf_of data) 25.

(** ** Transaction discipline

    A trace is read by a two-state machine: a transaction is begun only
    when none is open and committed only when one is; SPI and the snapshot
    stack are used only inside a transaction. [None] is a violation. *)
Inductive txn_state : Type := TxnIdle | TxnOpen.

Definition txn_step (s : txn_state) (e : event) : option txn_state :=
  match e, s with
  | Ev_StartTransactionCommand, TxnIdle => Some TxnOpen
  | Ev_StartTransactionCommand, TxnOpen => None
  | Ev_CommitTransactionCommand, TxnOpen => Some TxnIdle
  | Ev_CommitTransactionCommand, TxnIdle => None
  | (Ev_SPI_connect | Ev_PushActiveSnapshot | Ev_SPI_execute _
     | Ev_SPI_finish | Ev_PopActiveSnapshot), TxnIdle => None
  | _, _ => Some s
  end.

Fixpoint txn_run (s : txn_state) (evs : list event) : option txn_state :=
  match evs with
  | [] => Some s
  | e :: evs' =>
    match txn_step s e with
    | Some s' => txn_run s' evs'
    | None => None
    end
  end.

(** The action appends calls that, read from an idle state, end idle when
    the action returns and violate nothing when it stops. *)
Definition txn_safe {A : Type} (m : M A) : Prop :=
  forall w,
    exists evs,
      trace (snd (m w)) = trace w ++ evs /\
      match fst (m w) with
      | Ret _ => txn_run TxnIdle evs = Some TxnIdle
      | Stop _ => txn_run TxnIdle evs <> None
      end.

(* ===================================================================== *)
(** * hook_utility: loading and unloading the module *)
(* ===================================================================== *)

Module HookLifecycle.

(** A value of [ProcessUtility_hook_type]: the hook of this module, or
    one installed by another module. *)
Inductive utility_hook : Type :=
| hook_dbrestrict_utility
| hook_foreign (module : nat).

(** The hook pointer of the server and the one saved by this module;
    [None] is NULL. *)
Record hooks : Type := {
  ProcessUtility_hook : option utility_hook;
  prev_utility_hook : option utility_hook
}.

(** [_PG_init], without the registration of the two parameters. *)
Definition _PG_init (h : hooks) : hooks :=
  {| prev_utility_hook := ProcessUtility_hook h;
     ProcessUtility_hook := Some hook_dbrestrict_utility |}.

(** [_PG_fini]. *)
Definition _PG_fini (h : hooks) : hooks :=
  {| ProcessUtility_hook := prev_utility_hook h;
     prev_utility_hook := prev_utility_hook h |}.

(** The variables [dbrestrict_utility] reads, for given values of the two
    parameters. *)
Definition hook_state_of (h : hooks) (dbname username : string)
  : HookUtility.hook_state :=
  {| HookUtility.hook_dbname := dbname;
     HookUtility.hook_username := username;
     HookUtility.prev_utility_hook :=
       match prev_utility_hook h with Some _ => true | None => false end |}.

End HookLifecycle.
(* ===================================================================== *)
(** * Facts about bytes and the codec *)
(* ===================================================================== *)

Lemma byte_val_range (b : byte) : 0 <= byte_val b < 256.
Proof.
  unfold byte_val. pose proof (Byte.to_N_bounded b). lia.
Qed.

Lemma byte_val_of (z : Z) : byte_val (byte_of z) = z mod 256.
Proof.
  unfold byte_val, byte_of.
  assert (Hm : 0 <= z mod 256 < 256) by (apply Z.mod_pos_bound; lia).
  destruct (Byte.of_N (Z.to_N (z mod 256))) as [b|] eqn:E.
  - apply Byte.to_of_N in E. rewrite E. apply Z2N.id. lia.
  - apply Byte.of_N_None_iff in E. lia.
Qed.

Lemma byte_of_val (b : byte) : byte_of (byte_val b) = b.
Proof.
  unfold byte_of. pose proof (byte_val_range b) as Hr.
  rewrite Z.mod_small by exact Hr.
  unfold byte_val. rewrite N2Z.id, Byte.of_to_N. reflexivity.
Qed.

Lemma byte_of_mod (z : Z) (b : byte) : z mod 256 = byte_val b -> byte_of z = b.
Proof.
  intros H. rewrite <- (byte_of_val b), <- H.
  unfold byte_of. rewrite Z.mod_mod by lia. reflexivity.
Qed.

Lemma byte_of_congr (x y : Z) : x mod 256 = y mod 256 -> byte_of x = byte_of y.
Proof. intros H. apply byte_of_mod. rewrite byte_val_of. exact H. Qed.

Lemma value_of_octets4 (a b c d : byte) :
  value_of_octets [a; b; c; d] =
  byte_val a * 2 ^ 24 + byte_val b * 2 ^ 16 + byte_val c * 2 ^ 8 + byte_val d.
Proof. unfold value_of_octets. simpl. lia. Qed.

Lemma value_of_octets4_range (a b c d : byte) :
  0 <= value_of_octets [a; b; c; d] < 2 ^ 32.
Proof.
  rewrite value_of_octets4.
  pose proof (byte_val_range a). pose proof (byte_val_range b).
  pose proof (byte_val_range c). pose proof (byte_val_range d). lia.
Qed.

Lemma value_octets32 (x : Z) : value_of_octets (octets32 x) = x mod 2 ^ 32.
Proof.
  unfold octets32. rewrite value_of_octets4, !byte_val_of.
  rewrite !Z.shiftr_div_pow2 by lia.
  change (2 ^ 24) with 16777216. change (2 ^ 16) with 65536.
  change (2 ^ 8) with 256. change (2 ^ 32) with 4294967296.
  Z.div_mod_to_equations. lia.
Qed.

Lemma octets32_value (a b c d : byte) :
  octets32 (value_of_octets [a; b; c; d]) = [a; b; c; d].
Proof.
  unfold octets32. rewrite value_of_octets4.
  pose proof (byte_val_range a). pose proof (byte_val_range b).
  pose proof (byte_val_range c). pose proof (byte_val_range d).
  rewrite !Z.shiftr_div_pow2 by lia.
  change (2 ^ 24) with 16777216. change (2 ^ 16) with 65536.
  change (2 ^ 8) with 256.
  repeat f_equal; apply byte_of_mod; Z.div_mod_to_equations; lia.
Qed.

Lemma octets32_shape (x : Z) :
  exists a b c d, octets32 x = [a; b; c; d].
Proof. unfold octets32. eauto. Qed.

(** Whatever the host, storing [htonl x] lays the octets of [x] out most
    significant first. *)
Lemma store32_htonl (host : endianness) (x : Z) :
  store32 host (htonl host x) = octets32 x.
Proof.
  destruct host; unfold store32, htonl; [reflexivity|].
  unfold bswap32. destruct (octets32_shape x) as (a & b & c & d & E).
  rewrite E. cbn [rev app]. rewrite octets32_value. reflexivity.
Qed.

(** Whatever the host, [ntohl] of four loaded bytes is their value read
    most significant first. *)
Lemma ntohl_load32 (host : endianness) (a b c d : byte) :
  ntohl host (load32 host [a; b; c; d]) = value_of_octets [a; b; c; d].
Proof.
  destruct host; unfold ntohl, htonl, load32; [reflexivity|].
  unfold bswap32. cbn [rev app]. rewrite octets32_value. reflexivity.
Qed.

(** ** Buffers split at an offset *)

Lemma memcpy_to_app (pre old post src : list byte) :
  length old = length src ->
  memcpy_to (pre ++ old ++ post) (length pre) src = pre ++ src ++ post.
Proof.
  intros Hlen. unfold memcpy_to.
  rewrite firstn_app, firstn_all, Nat.sub_diag, firstn_O, app_nil_r.
  do 2 f_equal.
  rewrite skipn_app, skipn_all2 by lia. cbn [app].
  rewrite skipn_app, skipn_all2 by lia. cbn [app].
  replace (length pre + length src - length pre - length old)%nat
    with 0%nat by lia.
  reflexivity.
Qed.

Lemma memcpy_from_app (pre mid post : list byte) :
  memcpy_from (pre ++ mid ++ post) (length pre) (length mid) = Some mid.
Proof.
  unfold memcpy_from.
  replace (length pre + length mid <=? length (pre ++ mid ++ post))%nat
    with true by (symmetry; apply Nat.leb_le; rewrite !length_app; lia).
  rewrite skipn_app, skipn_all, Nat.sub_diag, skipn_O. cbn [app].
  rewrite firstn_app, firstn_all, Nat.sub_diag, firstn_O, app_nil_r.
  reflexivity.
Qed.

Lemma memcpy_from_None (src : list byte) (off n : nat) :
  (length src < off + n)%nat -> memcpy_from src off n = None.
Proof.
  intros H. unfold memcpy_from.
  destruct (Nat.leb_spec (off + n) (length src)); [lia | reflexivity].
Qed.

Lemma buffer_split (buf : list byte) (off n : nat) :
  (off + n <= length buf)%nat ->
  exists mid,
    buf = firstn off buf ++ mid ++ skipn (off + n) buf /\
    length (firstn off buf) = off /\ length mid = n.
Proof.
  intros H. exists (firstn n (skipn off buf)). repeat split.
  - rewrite <- (firstn_skipn off buf) at 1. f_equal.
    rewrite <- (firstn_skipn n (skipn off buf)) at 1. f_equal.
    rewrite skipn_skipn. f_equal. lia.
  - rewrite length_firstn. lia.
  - rewrite length_firstn, length_skipn. lia.
Qed.

Lemma list_of_length8 (l : list byte) :
  length l = 8%nat ->
  exists b0 b1 b2 b3 b4 b5 b6 b7, l = [b0; b1; b2; b3; b4; b5; b6; b7].
Proof.
  intros H.
  do 8 (destruct l as [|? l]; [discriminate H|]).
  destruct l; [|discriminate H]. eauto 10.
Qed.

(** ** Arithmetic of the two 32-bit halves *)

Lemma to_int64_id (x : Z) : int64_range x -> to_int64 x = x.
Proof.
  unfold int64_range, to_int64. intros H.
  rewrite Z.mod_small by lia. lia.
Qed.

Lemma to_int64_range (x : Z) : int64_range (to_int64 x).
Proof.
  unfold int64_range, to_int64.
  pose proof (Z.mod_pos_bound (x + 2 ^ 63) (2 ^ 64) ltac:(lia)). lia.
Qed.

(** [result <<= 32; result |= l32] glues the halves: the shifted high half
    has no bit below 32 and the low half none above, so the bitwise or is
    a sum. *)
Lemma halves_lor (h l : Z) :
  0 <= l < 2 ^ 32 ->
  Z.lor (to_int64 (Z.shiftl h 32)) l = to_int64 (h * 2 ^ 32) + l.
Proof.
  intros Hl. rewrite Z.shiftl_mul_pow2 by lia.
  assert (Hk : exists k, to_int64 (h * 2 ^ 32) = Z.shiftl k 32).
  { exists (to_int64 (h * 2 ^ 32) / 2 ^ 32).
    rewrite Z.shiftl_mul_pow2 by lia. unfold to_int64.
    change (2 ^ 63) with 9223372036854775808.
    change (2 ^ 64) with 18446744073709551616.
    change (2 ^ 32) with 4294967296.
    Z.div_mod_to_equations. lia. }
  destruct Hk as [k Hk]. rewrite Hk.
  assert (Hland : Z.land (Z.shiftl k 32) l = 0).
  { apply Z.bits_inj'. intros n Hn.
    rewrite Z.land_spec, Z.bits_0.
    destruct (Z.ltb_spec n 32).
    - rewrite Z.shiftl_spec_low by lia. reflexivity.
    - rewrite <- (Z.mod_small l (2 ^ 32)) by lia.
      rewrite Z.mod_pow2_bits_high by lia. apply andb_false_r. }
  rewrite <- Z.lxor_lor by exact Hland.
  symmetry. apply Z.add_nocarry_lxor, Hland.
Qed.

Lemma halves_of_int64 (i : Z) :
  int64_range i ->
  to_int64 (to_uint32 (Z.shiftr i 32) * 2 ^ 32) + to_uint32 i = i.
Proof.
  unfold int64_range, to_int64, to_uint32. intros H.
  rewrite Z.shiftr_div_pow2 by lia.
  change (2 ^ 63) with 9223372036854775808 in *.
  change (2 ^ 64) with 18446744073709551616.
  change (2 ^ 32) with 4294967296.
  Z.div_mod_to_equations. lia.
Qed.

Lemma int64_of_halves (h l : Z) :
  0 <= h < 2 ^ 32 -> 0 <= l < 2 ^ 32 ->
  to_uint32 (Z.shiftr (to_int64 (h * 2 ^ 32) + l) 32) = h /\
  to_uint32 (to_int64 (h * 2 ^ 32) + l) = l.
Proof.
  unfold to_int64, to_uint32. intros Hh Hl.
  rewrite Z.shiftr_div_pow2 by lia.
  change (2 ^ 63) with 9223372036854775808 in *.
  change (2 ^ 64) with 18446744073709551616.
  change (2 ^ 32) with 4294967296 in *.
  split; Z.div_mod_to_equations; lia.
Qed.

Lemma be64_halves (x : Z) :
  be64 x = octets32 (to_uint32 (Z.shiftr x 32)) ++ octets32 (to_uint32 x).
Proof.
  unfold be64, octets32, to_uint32. cbn [map app].
  rewrite !Z.shiftr_div_pow2 by lia.
  change (8 * 7) with 56. change (8 * 6) with 48. change (8 * 5) with 40.
  change (8 * 4) with 32. change (8 * 3) with 24. change (8 * 2) with 16.
  change (8 * 1) with 8. change (8 * 0) with 0.
  change (2 ^ 56) with 72057594037927936.
  change (2 ^ 48) with 281474976710656.
  change (2 ^ 40) with 1099511627776.
  change (2 ^ 32) with 4294967296.
  change (2 ^ 24) with 16777216. change (2 ^ 16) with 65536.
  change (2 ^ 8) with 256. change (2 ^ 0) with 1.
  repeat (apply (f_equal2 (@cons byte)); [apply byte_of_congr|]);
    try reflexivity; Z.div_mod_to_equations; lia.
Qed.

(** ** What the two stream functions do to a buffer *)

Lemma octets32_length (x : Z) : length (octets32 x) = 4%nat.
Proof. reflexivity. Qed.

(** [fe_sendint64] overwrites the eight bytes at [off] with the big-endian
    layout of [i], on either kind of host. *)
Lemma fe_sendint64_layout (host : endianness) (i : Z) (buf : list byte)
  (off : nat) :
  (off + 8 <= length buf)%nat ->
  fe_sendint64 host i buf off =
  firstn off buf ++ be64 i ++ skipn (off + 8) buf.
Proof.
  intros Hlen. unfold fe_sendint64. rewrite !store32_htonl.
  destruct (buffer_split buf off 8 Hlen) as (mid & Ebuf & Hpre & Hmid).
  destruct (list_of_length8 mid Hmid)
    as (b0 & b1 & b2 & b3 & b4 & b5 & b6 & b7 & ->).
  set (pre := firstn off buf) in *. set (post := skipn (off + 8) buf) in *.
  set (hi := octets32 (to_uint32 (Z.shiftr i 32))).
  set (lo := octets32 (to_uint32 i)).
  rewrite be64_halves. fold hi lo. rewrite Ebuf. rewrite <- Hpre.
  change (pre ++ [b0; b1; b2; b3; b4; b5; b6; b7] ++ post)
    with (pre ++ [b0; b1; b2; b3] ++ ([b4; b5; b6; b7] ++ post)).
  rewrite memcpy_to_app by reflexivity.
  replace (length pre + 4)%nat with (length (pre ++ hi))
    by (rewrite length_app; reflexivity).
  rewrite (app_assoc pre hi).
  rewrite memcpy_to_app by reflexivity.
  rewrite <- !app_assoc. reflexivity.
Qed.

(** [fe_recvint64] reads the eight bytes at [off] as two big-endian
    halves, on either kind of host. *)
Lemma fe_recvint64_value (host : endianness) (pre post : list byte)
  (b0 b1 b2 b3 b4 b5 b6 b7 : byte) :
  fe_recvint64 host (pre ++ [b0; b1; b2; b3; b4; b5; b6; b7] ++ post)
               (length pre) =
  Some (to_int64 (value_of_octets [b0; b1; b2; b3] * 2 ^ 32) +
        value_of_octets [b4; b5; b6; b7]).
Proof.
  unfold fe_recvint64.
  pose proof (memcpy_from_app pre [b0; b1; b2; b3]
                ([b4; b5; b6; b7] ++ post)) as Hh.
  pose proof (memcpy_from_app (pre ++ [b0; b1; b2; b3]) [b4; b5; b6; b7]
                post) as Hl.
  rewrite length_app, <- app_assoc in Hl.
  cbn [length app] in Hh, Hl. cbn [app].
  rewrite Hh, Hl, !ntohl_load32.
  rewrite halves_lor by apply value_of_octets4_range.
  reflexivity.
Qed.

Lemma fe_recvint64_None (host : endianness) (buf : list byte) (off : nat) :
  (length buf < off + 8)%nat -> fe_recvint64 host buf off = None.
Proof.
  intros H. unfold fe_recvint64.
  destruct (memcpy_from buf off 4); [|reflexivity].
  rewrite memcpy_from_None by lia. reflexivity.
Qed.

Lemma be64_to_int64 (x : Z) : be64 (to_int64 x) = be64 x.
Proof.
  unfold be64, to_int64. cbn [map].
  change (8 * 7) with 56. change (8 * 6) with 48. change (8 * 5) with 40.
  change (8 * 4) with 32. change (8 * 3) with 24. change (8 * 2) with 16.
  change (8 * 1) with 8. change (8 * 0) with 0.
  change (2 ^ 63) with 9223372036854775808.
  change (2 ^ 64) with 18446744073709551616.
  change (2 ^ 56) with 72057594037927936.
  change (2 ^ 48) with 281474976710656.
  change (2 ^ 40) with 1099511627776.
  change (2 ^ 32) with 4294967296.
  change (2 ^ 24) with 16777216. change (2 ^ 16) with 65536.
  change (2 ^ 8) with 256. change (2 ^ 0) with 1.
  repeat (apply (f_equal2 (@cons byte)); [apply byte_of_congr|]);
    try reflexivity; Z.div_mod_to_equations; lia.
Qed.

Lemma to_uint32_idem (x : Z) : to_uint32 x mod 2 ^ 32 = to_uint32 x.
Proof. unfold to_uint32. apply Z.mod_mod. lia. Qed.

Lemma be64_length (x : Z) : length (be64 x) = 8%nat.
Proof. reflexivity. Qed.

(** Reading back the big-endian layout of a value. *)
Lemma fe_recvint64_be64 (host : endianness) (pre post : list byte) (x : Z) :
  fe_recvint64 host (pre ++ be64 x ++ post) (length pre) = Some (to_int64 x).
Proof.
  rewrite <- (be64_to_int64 x).
  pose proof (to_int64_range x) as Hr. set (i := to_int64 x) in *.
  rewrite be64_halves.
  destruct (octets32_shape (to_uint32 (Z.shiftr i 32)))
    as (b0 & b1 & b2 & b3 & Eh).
  destruct (octets32_shape (to_uint32 i)) as (b4 & b5 & b6 & b7 & El).
  rewrite Eh, El.
  change ([b0; b1; b2; b3] ++ [b4; b5; b6; b7])
    with [b0; b1; b2; b3; b4; b5; b6; b7].
  rewrite fe_recvint64_value.
  rewrite <- Eh, <- El, !value_octets32.
  rewrite !to_uint32_idem.
  rewrite halves_of_int64 by exact Hr. reflexivity.
Qed.

(** C5. For every 64-bit integer, [fe_sendint64] followed by
    [fe_recvint64] on the same eight bytes gives the integer back; and
    whatever eight bytes a buffer holds (the position or the timestamp of
    a keepalive), decoding them and encoding the value again restores
    exactly those bytes. This holds on big- and little-endian hosts. *)
Theorem fe_int64_roundtrip (host : endianness) (buf : list byte) (off : nat)
  (i : Z) :
  (off + 8 <= length buf)%nat ->
  int64_range i ->
  fe_recvint64 host (fe_sendint64 host i buf off) off = Some i /\
  (forall v, fe_recvint64 host buf off = Some v ->
             int64_range v /\ fe_sendint64 host v buf off = buf).
Proof.
  intros Hlen Hi. split.
  - rewrite fe_sendint64_layout by exact Hlen.
    pose proof (fe_recvint64_be64 host (firstn off buf)
                  (skipn (off + 8) buf) i) as Hrecv.
    rewrite length_firstn, Nat.min_l in Hrecv by lia.
    rewrite Hrecv. f_equal. apply to_int64_id, Hi.
  - intros v Hv.
    destruct (buffer_split buf off 8 Hlen) as (mid & Ebuf & Hpre & Hmid).
    destruct (list_of_length8 mid Hmid)
      as (b0 & b1 & b2 & b3 & b4 & b5 & b6 & b7 & ->).
    set (pre := firstn off buf) in *. set (post := skipn (off + 8) buf) in *.
    pose proof (fe_recvint64_value host pre post b0 b1 b2 b3 b4 b5 b6 b7)
      as Hrecv.
    rewrite <- Ebuf, Hpre, Hv in Hrecv.
    assert (Ev : v = to_int64 (value_of_octets [b0; b1; b2; b3] * 2 ^ 32) +
                     value_of_octets [b4; b5; b6; b7]) by congruence.
    subst v. clear Hrecv.
    pose proof (value_of_octets4_range b0 b1 b2 b3) as Hh.
    pose proof (value_of_octets4_range b4 b5 b6 b7) as Hl.
    destruct (int64_of_halves Hh Hl) as [Eh El].
    split.
    + unfold int64_range.
      pose proof (to_int64_range (value_of_octets [b0; b1; b2; b3] * 2 ^ 32))
        as Hr.
      unfold int64_range, to_int64 in *.
      change (2 ^ 63) with 9223372036854775808 in *.
      change (2 ^ 64) with 18446744073709551616 in *.
      change (2 ^ 32) with 4294967296 in *.
      Z.div_mod_to_equations. lia.
    + rewrite fe_sendint64_layout by exact Hlen.
      rewrite be64_halves, Eh, El, !octets32_value.
      symmetry. exact Ebuf.
Qed.

(** The round trip at a negative value on a little-endian host. *)
Lemma fe_int64_roundtrip_witness :
  fe_recvint64 LittleEndian
    (fe_sendint64 LittleEndian (-2) (repeat x00 8) 0) 0 = Some (-2) /\
  (forall v, fe_recvint64 LittleEndian (repeat x00 8) 0 = Some v ->
             int64_range v /\
             fe_sendint64 LittleEndian v (repeat x00 8) 0 = repeat x00 8).
Proof.
  apply (@fe_int64_roundtrip LittleEndian (repeat x00 8) 0 (-2)).
  - simpl. lia.
  - unfold int64_range. lia.
Defined.

(* ===================================================================== *)
(** * receiver_raw: runs of the worker *)
(* ===================================================================== *)

Lemma Max_max (x y : Z) : Max x y = Z.max x y.
Proof.
  unfold Max. destruct (Z.gtb_spec x y); lia.
Qed.

Lemma byte_eqb_refl (b : byte) : Byte.eqb b b = true.
Proof. apply Byte.byte_dec_lb. reflexivity. Qed.

Lemma byte_eqb_neq (a b : byte) : a <> b -> Byte.eqb a b = false.
Proof.
  intros H. destruct (Byte.eqb a b) eqn:E; [|reflexivity].
  apply Byte.byte_dec_bl in E. contradiction.
Qed.

Lemma extend_extend (w : world) (l1 l2 : list event) :
  extend (extend w l1) l2 = extend w (l1 ++ l2).
Proof. unfold extend. cbn. rewrite <- app_assoc. reflexivity. Qed.

Lemma extend_nil (w : world) : extend w [] = w.
Proof. destruct w. unfold extend. cbn. rewrite app_nil_r. reflexivity. Qed.

Lemma observe_extend (p : Z) (w : world) (l : list event) :
  observe p (extend w l) = extend (observe p w) l.
Proof. reflexivity. Qed.

(** ** Running an action step by step *)

Lemma run_bind_ret (A B : Type) (a : A) (k : A -> M B) (w : world) :
  bind (ret a) k w = k a w.
Proof. reflexivity. Qed.

Lemma run_bind_gets (A B : Type) (f : world -> A) (k : A -> M B) (w : world) :
  bind (gets f) k w = k (f w) w.
Proof. reflexivity. Qed.

Lemma run_bind_emit (B : Type) (e : event) (k : unit -> M B) (w : world) :
  bind (emit e) k w = k tt (extend w [e]).
Proof. reflexivity. Qed.

Lemma run_bind_modify (B : Type) (f : world -> world) (k : unit -> M B)
  (w : world) :
  bind (modify f) k w = k tt (f w).
Proof. reflexivity. Qed.

Lemma run_bind_stop (A B : Type) (s : stop) (k : A -> M B) (w : world) :
  bind (stop_with s) k w = (Stop s, w).
Proof. reflexivity. Qed.

Lemma run_bind_bind (A B C : Type) (m : M A) (k : A -> M B) (k' : B -> M C)
  (w : world) :
  bind (bind m k) k' w = bind m (fun a => bind (k a) k') w.
Proof. unfold bind. destruct (m w) as [[a|s] w1]; reflexivity. Qed.

Lemma run_emit (e : event) (w : world) : emit e w = (Ret tt, extend w [e]).
Proof. reflexivity. Qed.

Lemma run_ret (A : Type) (a : A) (w : world) : ret a w = (Ret a, w).
Proof. reflexivity. Qed.

Lemma run_proc_exit (A : Type) (status : Z) (w : world) :
  @proc_exit A status w = (Stop (ProcExit status), w).
Proof. reflexivity. Qed.

Lemma run_bind_proc_exit (A B : Type) (status : Z) (k : A -> M B) (w : world) :
  bind (proc_exit status) k w = (Stop (ProcExit status), w).
Proof. reflexivity. Qed.

Lemma trace_extend (w : world) (evs : list event) :
  trace (extend w evs) = trace w ++ evs.
Proof. reflexivity. Qed.

Lemma written_extend (w : world) (evs : list event) :
  output_written_lsn (extend w evs) = output_written_lsn w.
Proof. reflexivity. Qed.

Lemma fsync_extend (w : world) (evs : list event) :
  output_fsync_lsn (extend w evs) = output_fsync_lsn w.
Proof. reflexivity. Qed.

Lemma sigterm_extend (w : world) (evs : list event) :
  got_sigterm (extend w evs) = got_sigterm w.
Proof. reflexivity. Qed.

Lemma sighup_extend (w : world) (evs : list event) :
  got_sighup (extend w evs) = got_sighup w.
Proof. reflexivity. Qed.

(** Executes the primitive actions at the head of a run and gathers the
    calls appended to the trace. *)
Ltac run_steps :=
  repeat first
    [ rewrite run_bind_bind
    | rewrite run_bind_ret
    | rewrite run_bind_gets
    | rewrite run_bind_emit
    | rewrite run_bind_modify
    | rewrite run_bind_proc_exit
    | rewrite run_bind_stop
    | rewrite run_emit
    | rewrite run_ret
    | rewrite run_proc_exit
    | rewrite extend_extend
    | rewrite trace_extend
    | rewrite written_extend
    | rewrite fsync_extend
    | rewrite sigterm_extend
    | rewrite sighup_extend
    | progress cbn [app] ].

(** ** Combinators for [behaves] *)

Section Behaves.

Variable P : event -> Prop.
Variable Q : stop -> Prop.

Lemma behaves_ret (A : Type) (a : A) : behaves P Q (ret a).
Proof.
  intros w. split; [exists []; split; [cbn; now rewrite app_nil_r | constructor]|].
  cbn. discriminate.
Qed.

Lemma behaves_gets (A : Type) (f : world -> A) : behaves P Q (gets f).
Proof.
  intros w. split; [exists []; split; [cbn; now rewrite app_nil_r | constructor]|].
  cbn. discriminate.
Qed.

Lemma behaves_stop_with (A : Type) (s : stop) :
  Q s -> behaves P Q (@stop_with A s).
Proof.
  intros Hs w. split; [exists []; split; [cbn; now rewrite app_nil_r | constructor]|].
  cbn. intros s' [= <-]. exact Hs.
Qed.

Lemma behaves_proc_exit (A : Type) (status : Z) :
  Q (ProcExit status) -> behaves P Q (@proc_exit A status).
Proof. apply behaves_stop_with. Qed.

Lemma behaves_emit (e : event) : P e -> behaves P Q (emit e).
Proof.
  intros He w. split; [exists [e]; split; [reflexivity | repeat constructor; exact He]|].
  cbn. discriminate.
Qed.

Lemma behaves_modify (f : world -> world) :
  (forall w, trace (f w) = trace w) -> behaves P Q (modify f).
Proof.
  intros Hf w. split.
  - exists []. split; [cbn; now rewrite Hf, app_nil_r | constructor].
  - cbn. discriminate.
Qed.

Lemma behaves_bind (A B : Type) (m : M A) (k : A -> M B) :
  behaves P Q m -> (forall a, behaves P Q (k a)) -> behaves P Q (bind m k).
Proof.
  intros Hm Hk w. unfold bind.
  destruct (Hm w) as [(evs & Et & Hevs) Hstop].
  destruct (m w) as [[a|s] w1]; cbn in *.
  - destruct (Hk a w1) as [(evs' & Et' & Hevs') Hstop'].
    split; [|exact Hstop'].
    exists (evs ++ evs'). split.
    + rewrite Et', Et, app_assoc. reflexivity.
    + apply Forall_app. split; assumption.
  - split; [exists evs; split; assumption|].
    intros s' [= <-]. apply Hstop. reflexivity.
Qed.

End Behaves.

Create HintDb worker.

(** Walks through an action built from binds, conditionals and the
    primitive actions. *)
Ltac behaves_steps :=
  repeat first
    [ solve [auto with worker nocore]
    | apply behaves_bind; [|intros ?]
    | apply behaves_ret
    | apply behaves_gets
    | apply behaves_emit; solve [reflexivity | exact I]
    | apply behaves_proc_exit; solve [reflexivity | exact I]
    | apply behaves_stop_with; solve [reflexivity | exact I]
    | apply behaves_modify; intros ?; reflexivity
    | match goal with
      | |- behaves _ _ (if ?c then _ else _) => destruct c
      | |- behaves _ _ (let '(_, _) := ?p in _) => destruct p
      | |- behaves _ _ (match ?x with _ => _ end) => destruct x
      end ].

Section ReceiverFacts.

Variable pg : pg_headers.
Variable host : endianness.
Variable env : environment.

Lemma behaves_sendFeedback (now : Z) :
  behaves not_commit fatal_stop (sendFeedback pg host env now).
Proof. unfold sendFeedback. behaves_steps. Qed.

Lemma behaves_feGetCurrentTimestamp :
  behaves not_commit fatal_stop (feGetCurrentTimestamp pg env).
Proof. unfold feGetCurrentTimestamp. behaves_steps. Qed.

#[local] Hint Resolve behaves_sendFeedback behaves_feGetCurrentTimestamp
  : worker.

Lemma behaves_keepalive (rc : Z) (copybuf : list byte) :
  behaves not_commit fatal_stop (keepalive pg host env rc copybuf).
Proof. unfold keepalive, recvint64, read_byte. behaves_steps. Qed.

Lemma behaves_waldata (rc : Z) (copybuf : list byte) :
  behaves not_commit fatal_stop (waldata pg env rc copybuf).
Proof. unfold waldata. behaves_steps. Qed.

#[local] Hint Resolve behaves_keepalive behaves_waldata : worker.

Lemma behaves_process_message (rc : Z) (copybuf : list byte) :
  behaves not_commit fatal_stop (process_message pg host env rc copybuf).
Proof. unfold process_message, read_byte. behaves_steps. Qed.

#[local] Hint Resolve behaves_process_message : worker.

(** By induction on the messages the inner loop receives. *)
Lemma behaves_receive_loop (frames : list (list byte)) (final : copy_end) :
  behaves not_commit fatal_stop (receive_loop pg host env frames final).
Proof.
  induction frames as [|data frames IH]; cbn [receive_loop]; behaves_steps.
Qed.

End ReceiverFacts.

(** ** Transactions read off a trace *)

Lemma replay_app (l1 l2 : list event) (p c : list (list byte)) :
  replay (l1 ++ l2) p c =
  replay l2 (fst (replay l1 p c)) (snd (replay l1 p c)).
Proof.
  revert p c. induction l1 as [|e l1 IH]; intros p c; [reflexivity|].
  destruct e; cbn [app replay]; apply IH.
Qed.

Lemma replay_no_commit (evs : list event) (p c : list (list byte)) :
  Forall not_commit evs -> snd (replay evs p c) = c.
Proof.
  intros H. revert p c. induction H as [|e evs He _ IH]; intros p c;
    [reflexivity|].
  destruct e; cbn [replay]; try apply IH. discriminate He.
Qed.

Lemma committed_statements_no_commit (tr evs : list event) :
  Forall not_commit evs ->
  committed_statements (tr ++ evs) = committed_statements tr.
Proof.
  intros H. unfold committed_statements.
  rewrite replay_app. apply replay_no_commit, H.
Qed.

Lemma not_commit_not_In (evs : list event) :
  Forall not_commit evs -> ~ In Ev_CommitTransactionCommand evs.
Proof.
  intros H Hin. rewrite Forall_forall in H.
  specialize (H _ Hin). discriminate H.
Qed.

Section DrainCycle.

Variable pg : pg_headers.
Variable host : endianness.
Variable env : environment.

Lemma drain_cycle_run (frames : list (list byte)) (final : copy_end)
  (w : world) :
  drain_cycle pg host env frames final w =
  match receive_loop pg host env frames final (extend w cycle_prologue) with
  | (Ret rc, w1) => (Ret rc, extend w1 cycle_epilogue)
  | (Stop s, w1) => (Stop s, w1)
  end.
Proof.
  unfold drain_cycle, bind, emit, modify, ret. cbn.
  rewrite !extend_extend. cbn [app].
  fold cycle_prologue.
  destruct (receive_loop pg host env frames final (extend w cycle_prologue))
    as [[rc|s] w1]; [|reflexivity].
  rewrite !extend_extend. reflexivity.
Qed.

(** The inner loop only breaks with one of the three non-positive results
    of [PQgetCopyData]. *)
Lemma receive_loop_rc (frames : list (list byte)) (final : copy_end)
  (w : world) (rc : Z) :
  fst (receive_loop pg host env frames final w) = Ret rc ->
  rc = 0 \/ rc = -1 \/ rc = -2.
Proof.
  revert w. induction frames as [|data frames IH]; intros w;
    cbn [receive_loop]; unfold bind, emit, modify, ret; cbn.
  - intros [= <-]. destruct final; cbn; auto.
  - destruct (Z.leb_spec (Z.of_nat (length data)) 0) as [Hle|Hgt]; cbn.
    + intros [= <-]. lia.
    + destruct (process_message pg host env _ _ _) as [[[]|s] w1]; cbn.
      * apply IH.
      * discriminate.
Qed.

(** C10. A drain cycle that does not return stopped before the batch
    commit: a process exit from inside it has status 1, the calls made
    since the cycle began contain the [StartTransactionCommand] that
    opened the transaction and no [CommitTransactionCommand], and the
    statements of committed transactions are those committed before the
    cycle. The commit is only reached once the inner loop has broken with
    [PQgetCopyData] returning no data (0), end of stream (-1) or a
    failure (-2). *)
Theorem drain_cycle_commit (frames : list (list byte)) (final : copy_end)
  (w : world) :
  match drain_cycle pg host env frames final w with
  | (Stop s, w') =>
    fatal_stop s /\
    (exists evs, trace w' = trace w ++ evs /\
                 In Ev_StartTransactionCommand evs /\
                 ~ In Ev_CommitTransactionCommand evs) /\
    committed_statements (trace w') = committed_statements (trace w)
  | (Ret rc, w') =>
    (rc = 0 \/ rc = -1 \/ rc = -2) /\
    fst (receive_loop pg host env frames final (extend w cycle_prologue))
      = Ret rc /\
    exists evs, trace w' = trace w ++ cycle_prologue ++ evs ++ cycle_epilogue /\
                ~ In Ev_CommitTransactionCommand evs
  end.
Proof.
  rewrite drain_cycle_run.
  pose proof (behaves_receive_loop pg host env frames final
                (extend w cycle_prologue)) as [(evs & Et & Hevs) Hstop].
  pose proof (@receive_loop_rc frames final (extend w cycle_prologue)) as Hrc.
  destruct (receive_loop pg host env frames final (extend w cycle_prologue))
    as [[rc|s] w1]; cbn [fst snd] in *.
  - split; [apply Hrc; reflexivity|]. split; [reflexivity|].
    exists evs. split; [|apply not_commit_not_In, Hevs].
    cbn [extend trace]. rewrite Et. cbn [extend trace].
    rewrite <- !app_assoc. reflexivity.
  - split; [apply Hstop; reflexivity|].
    assert (Hall : Forall not_commit (cycle_prologue ++ evs)).
    { apply Forall_app. split; [repeat constructor | exact Hevs]. }
    split.
    + exists (cycle_prologue ++ evs). split.
      * rewrite Et. cbn [extend trace]. rewrite <- app_assoc. reflexivity.
      * split; [cbn; auto | apply not_commit_not_In, Hall].
    + rewrite Et. cbn [extend trace]. rewrite <- app_assoc.
      apply committed_statements_no_commit, Hall.
Qed.

End DrainCycle.

(** ** The standby status update *)

Section Feedback.

Variable pg : pg_headers.
Variable host : endianness.
Variable env : environment.

(** The packet assembled by [sendFeedback], byte for byte. *)
Lemma feedback_message_layout (written fsync now : Z) :
  feedback_message pg host written fsync now =
  "r"%byte :: be64 written ++ be64 fsync ++ be64 (InvalidXLogRecPtr pg) ++
  be64 now ++ [x00].
Proof.
  unfold feedback_message, feedback_packet.
  rewrite <- (be64_to_int64 written), <- (be64_to_int64 fsync),
    <- (be64_to_int64 (InvalidXLogRecPtr pg)).
  generalize (to_int64 written) (to_int64 fsync)
    (to_int64 (InvalidXLogRecPtr pg)).
  intros a b c.
  cbn [repeat Nat.add memcpy_to firstn skipn app length].
  rewrite (@fe_sendint64_layout host a) by (cbn [length]; lia).
  unfold be64 at 1. cbn [map Nat.add firstn skipn app length].
  rewrite (@fe_sendint64_layout host b) by (cbn [length]; lia).
  unfold be64 at 1. cbn [map Nat.add firstn skipn app length].
  rewrite (@fe_sendint64_layout host c) by (cbn [length]; lia).
  unfold be64 at 1. cbn [map Nat.add firstn skipn app length].
  rewrite (@fe_sendint64_layout host now) by (cbn [length]; lia).
  unfold be64. cbn [map Nat.add firstn skipn app length].
  reflexivity.
Qed.

Lemma feedback_message_length (written fsync now : Z) :
  length (feedback_message pg host written fsync now) = 34%nat.
Proof. rewrite feedback_message_layout. reflexivity. Qed.

(** The three ways [sendFeedback] ends. *)
Lemma sendFeedback_run (now : Z) (w : world) :
  let message :=
    feedback_message pg host (output_written_lsn w) (output_fsync_lsn w) now in
  let confirming :=
    Ev_ereport (LogConfirming
                  (to_uint32 (Z.shiftr (output_written_lsn w) 32))
                  (to_uint32 (output_written_lsn w))
                  (to_uint32 (Z.shiftr (output_fsync_lsn w) 32))
                  (to_uint32 (output_fsync_lsn w))) in
  exists (sent : bool) (tail : list event),
    sendFeedback pg host env now w =
    (Ret sent, extend w ([confirming; Ev_PQputCopyData message] ++ tail)) /\
    Forall feedback_tail tail.
Proof.
  intros message confirming.
  unfold sendFeedback. run_steps.
  fold message. fold confirming.
  destruct (PQputCopyData env (trace w ++ [confirming]) message <=? 0).
  - exists false, [Ev_ereport LogFeedbackFailed]. run_steps.
    split; [reflexivity | repeat constructor].
  - run_steps.
    destruct (PQflush env _ =? 0); cbn [negb]; run_steps.
    + exists true, [Ev_PQflush]. split; [reflexivity | repeat constructor].
    + exists false, [Ev_PQflush; Ev_ereport LogFeedbackFailed].
      split; [reflexivity | repeat constructor].
Qed.

(** C2 (as the code has it). With [output_written_lsn] and
    [output_fsync_lsn] at 100 and the timestamp [T], [sendFeedback] logs
    the positions and hands libpq exactly 34 bytes: the tag ['r'], the
    big-endian 100 of the write position, the big-endian 100 of the flush
    position, the big-endian [InvalidXLogRecPtr] as apply position (eight
    zero bytes with PostgreSQL's headers), the big-endian [T], and a final
    zero byte. Nothing else is put on the connection by the call. *)
Theorem sendFeedback_packet_100 (T : Z) (sigterm sighup : bool)
  (tr : list event) :
  let w := mkWorld 100 100 sigterm sighup tr in
  let packet :=
    "r"%byte :: be64 100 ++ be64 100 ++ be64 (InvalidXLogRecPtr pg) ++
    be64 T ++ [x00] in
  length packet = 34%nat /\
  be64 (InvalidXLogRecPtr postgres_headers) = repeat x00 8 /\
  exists tail,
    trace (snd (sendFeedback pg host env T w)) =
    tr ++ [Ev_ereport (LogConfirming 0 100 0 100); Ev_PQputCopyData packet]
       ++ tail /\
    Forall feedback_tail tail.
Proof.
  intros w packet. split; [reflexivity|]. split; [reflexivity|].
  destruct (sendFeedback_run T w) as (sent & tail & E & Htail).
  exists tail. rewrite E. split; [|exact Htail].
  cbn [snd extend trace]. rewrite feedback_message_layout. reflexivity.
Qed.

End Feedback.

(** C2, as stated, fails on the code: with PostgreSQL's headers the packet
    sent for positions 100/100 is not the one whose apply field holds the
    eight bytes of -1. *)
Lemma sendFeedback_apply_not_minus_one :
  let w := mkWorld 100 100 false false [] in
  let claimed :=
    "r"%byte :: be64 100 ++ be64 100 ++ be64 (-1) ++ be64 0 ++ [x00] in
  ~ In (Ev_PQputCopyData claimed)
       (trace (snd (sendFeedback postgres_headers LittleEndian
                                 (fixed_env 0 0 7) 0 w))).
Proof.
  vm_compute. intros [H|[H|[H|[]]]]; discriminate H.
Qed.

(** ** The position tracker *)

Lemma observe_all_written (positions : list Z) (w : world) :
  output_written_lsn (observe_all positions w) =
  fold_right Z.max (output_written_lsn w) positions.
Proof.
  revert w. induction positions as [|p positions IH]; intros w;
    [reflexivity|].
  unfold observe_all in *. cbn [fold_left fold_right].
  rewrite IH. cbn [observe output_written_lsn]. rewrite Max_max.
  clear IH. induction positions as [|q positions IH]; cbn [fold_right]; lia.
Qed.

(** C4. After observing the positions [p1 ... pn] in order, the tracked
    written position is their maximum, taken from the position tracked
    before the first call (the invalid, zero position of a fresh worker);
    and right after every single call the flushed position equals the
    written position. *)
Theorem observe_all_max (positions : list Z) (w : world) :
  output_written_lsn (observe_all positions w) =
  fold_right Z.max (output_written_lsn w) positions /\
  (forall (p : Z) (w' : world),
     output_fsync_lsn (observe p w') = output_written_lsn (observe p w')) /\
  (forall (before : list Z) (p : Z),
     output_fsync_lsn (observe_all (before ++ [p]) w) =
     output_written_lsn (observe_all (before ++ [p]) w)).
Proof.
  split; [apply observe_all_written|split].
  - reflexivity.
  - intros before p. unfold observe_all. rewrite fold_left_app. reflexivity.
Qed.

(** On a fresh worker under PostgreSQL's headers the maximum starts from
    zero. *)
Lemma observe_all_fresh (positions : list Z) :
  output_written_lsn (observe_all positions (initial_world postgres_headers)) =
  fold_right Z.max 0 positions.
Proof. apply observe_all_written. Qed.

(** ** One message of the COPY stream *)

Lemma run_bind_stopped (A B : Type) (m : M A) (k : A -> M B) (w w' : world)
  (s : stop) :
  m w = (Stop s, w') -> bind m k w = (Stop s, w').
Proof. intros E. unfold bind. rewrite E. reflexivity. Qed.

Lemma run_bind_returned (A B : Type) (m : M A) (k : A -> M B) (w w' : world)
  (a : A) :
  m w = (Ret a, w') -> bind m k w = k a w'.
Proof. intros E. unfold bind. rewrite E. reflexivity. Qed.

Section Messages.

Variable pg : pg_headers.
Variable host : endianness.
Variable env : environment.

Lemma receive_loop_cons (data : list byte) (frames : list (list byte))
  (final : copy_end) (w : world) :
  data <> [] ->
  receive_loop pg host env (data :: frames) final w =
  bind (process_message pg host env (Z.of_nat (length data)) (copybuf_of data))
       (fun _ => receive_loop pg host env frames final)
       (extend w [Ev_PQgetCopyData (Z.of_nat (length data))]).
Proof.
  intros Hne. cbn [receive_loop]. run_steps.
  destruct (Z.leb_spec (Z.of_nat (length data)) 0) as [Hle|Hgt];
    [|reflexivity].
  destruct data; [contradiction | cbn [length] in Hle; lia].
Qed.

Lemma receive_loop_nil (final : copy_end) (w : world) :
  receive_loop pg host env [] final w =
  (Ret (copy_end_rc final), extend w [Ev_PQgetCopyData (copy_end_rc final)]).
Proof. cbn [receive_loop]. run_steps. reflexivity. Qed.

(** A message with an unknown tag. *)
Lemma process_message_unknown (rc : Z) (tag : byte) (rest : list byte)
  (w : world) :
  tag <> "k"%byte -> tag <> "w"%byte ->
  process_message pg host env rc (copybuf_of (tag :: rest)) w =
  (Stop (ProcExit 1), extend w [Ev_ereport LogIncorrectHeader]).
Proof.
  intros Hk Hw. unfold process_message, read_byte.
  cbn [copybuf_of app nth_error]. run_steps.
  rewrite (byte_eqb_neq Hk), (byte_eqb_neq Hw). cbn [negb]. run_steps.
  reflexivity.
Qed.

(** The first pass of the main loop up to the inner loop, when no signal
    is pending or delivered and the postmaster is alive. *)
Lemma main_loop_enters_drain (wk : wakeup) (script : list wakeup) (w : world) :
  got_sigterm w = false -> got_sighup w = false ->
  latch_signals wk = [] ->
  Z.land (latch_rc wk) (WL_POSTMASTER_DEATH pg) = 0 ->
  forall (s : stop) (w' : world),
    receive_loop pg host env (copy_frames wk) (copy_final wk)
      (extend w ([Ev_WaitLatch; Ev_ResetLatch] ++ cycle_prologue))
    = (Stop s, w') ->
    main_loop pg host env (wk :: script) w = (Stop s, w').
Proof.
  intros Hterm Hhup Hsig Halive s w' Hloop.
  cbn [main_loop]. run_steps. rewrite Hterm.
  apply run_bind_stopped.
  unfold main_iteration. run_steps. rewrite Hsig. cbn [deliver_all].
  run_steps. rewrite Hhup. run_steps. rewrite Hterm, Halive.
  cbn [Z.eqb negb]. apply run_bind_stopped.
  rewrite drain_cycle_run, extend_extend.
  cbn [app cycle_prologue] in *. rewrite Hloop. reflexivity.
Qed.

(** C6. A received message whose first byte is neither ['k'] nor ['w']
    is fatal: the inner loop logs "Incorrect streaming header" and the
    process exits with status 1, without another [PQgetCopyData] and
    without any other call. Seen from the main loop: the pass that received
    the message ends the process with status 1 after that log line. *)
Theorem unknown_tag_is_fatal (tag : byte) (rest : list byte)
  (wk : wakeup) (script : list wakeup) (frames : list (list byte))
  (w : world) :
  tag <> "k"%byte -> tag <> "w"%byte ->
  copy_frames wk = (tag :: rest) :: frames ->
  got_sigterm w = false -> got_sighup w = false ->
  latch_signals wk = [] ->
  Z.land (latch_rc wk) (WL_POSTMASTER_DEATH pg) = 0 ->
  let rc := Z.of_nat (length (tag :: rest)) in
  (forall w0,
     receive_loop pg host env ((tag :: rest) :: frames) (copy_final wk) w0 =
     (Stop (ProcExit 1),
      extend w0 [Ev_PQgetCopyData rc; Ev_ereport LogIncorrectHeader])) /\
  main_loop pg host env (wk :: script) w =
  (Stop (ProcExit 1),
   extend w ([Ev_WaitLatch; Ev_ResetLatch] ++ cycle_prologue ++
             [Ev_PQgetCopyData rc; Ev_ereport LogIncorrectHeader])).
Proof.
  intros Hk Hw Hframes Hterm Hhup Hsig Halive rc.
  assert (Hloop : forall w0,
    receive_loop pg host env ((tag :: rest) :: frames) (copy_final wk) w0 =
    (Stop (ProcExit 1),
     extend w0 [Ev_PQgetCopyData rc; Ev_ereport LogIncorrectHeader])).
  { intros w0. rewrite receive_loop_cons by discriminate.
    erewrite run_bind_stopped
      by (apply process_message_unknown; assumption).
    rewrite extend_extend. reflexivity. }
  split; [exact Hloop|].
  apply main_loop_enters_drain; try assumption.
  rewrite Hframes, Hloop, extend_extend, <- app_assoc. reflexivity.
Qed.

End Messages.

(** The run of C6 on a concrete pass: a one-byte message ['x']. *)
Lemma unknown_tag_is_fatal_witness :
  let wk := {| latch_signals := []; latch_rc := 1;
               copy_frames := [["x"%byte]]; copy_final := CopyNoData;
               select_signals := []; select_r := 0; select_eintr := false;
               consume_rc := 1 |} in
  let w := initial_world postgres_headers in
  (forall w0,
     receive_loop postgres_headers LittleEndian (fixed_env 0 0 7)
       [["x"%byte]] CopyNoData w0 =
     (Stop (ProcExit 1),
      extend w0 [Ev_PQgetCopyData 1; Ev_ereport LogIncorrectHeader])) /\
  main_loop postgres_headers LittleEndian (fixed_env 0 0 7) [wk] w =
  (Stop (ProcExit 1),
   extend w ([Ev_WaitLatch; Ev_ResetLatch] ++ cycle_prologue ++
             [Ev_PQgetCopyData 1; Ev_ereport LogIncorrectHeader])).
Proof.
  intros wk w.
  apply (@unknown_tag_is_fatal postgres_headers LittleEndian
           (fixed_env 0 0 7) "x"%byte [] wk [] [] w);
    solve [discriminate | reflexivity].
Defined.

Section Frames.

Variable pg : pg_headers.
Variable host : endianness.
Variable env : environment.

Lemma nth_error_copybuf (data : list byte) (n : nat) (b : byte) :
  nth_error data n = Some b -> nth_error (copybuf_of data) n = Some b.
Proof.
  intros H. unfold copybuf_of. rewrite nth_error_app1; [exact H|].
  apply nth_error_Some. rewrite H. discriminate.
Qed.

(** The calls of a statement that [SPI_execute], called after the calls
    made so far, does not report as an INSERT, UPDATE or DELETE. *)
Lemma waldata_failed (rc : Z) (copybuf : list byte) (w : world) :
  26 <= rc ->
  let query := c_string copybuf 25 in
  let answer :=
    SPI_execute env
      (trace w ++ [Ev_pgstat_report_activity (STATE_RUNNING query);
                   Ev_SetCurrentStatementStartTimestamp]) query in
  answer <> SPI_OK_INSERT pg ->
  answer <> SPI_OK_UPDATE pg ->
  answer <> SPI_OK_DELETE pg ->
  waldata pg env rc copybuf w =
  (Ret tt, extend w [Ev_pgstat_report_activity (STATE_RUNNING query);
                     Ev_SetCurrentStatementStartTimestamp;
                     Ev_SPI_execute query;
                     Ev_ereport (LogApplyError query)]).
Proof.
  intros Hrc query answer Hi Hu Hd. unfold waldata.
  change (Z.of_nat (1 + 8 + 8 + 8) + 1) with 26.
  change (1 + 8 + 8 + 8)%nat with 25%nat. fold query.
  destruct (Z.ltb_spec rc 26) as [Hlt|_]; [lia|].
  run_steps. fold answer.
  apply Z.eqb_neq in Hi, Hu, Hd. rewrite Hi, Hu, Hd.
  run_steps. reflexivity.
Qed.

(** C8. A WalData message whose statement [SPI_execute] does not report
    as an INSERT, UPDATE or DELETE when it is executed, after the calls
    made so far, is only logged ("Error when applying change"): the inner
    loop goes on with the next message from a world where nothing but the
    calls of this statement was added, and the process does not exit: a
    loop that ends after this message returns, and the drain cycle the
    message belongs to reaches its commit whenever the messages after it
    let the loop return. *)
Theorem failed_statement_only_logged (data : list byte)
  (frames : list (list byte)) (final : copy_end) (w : world) :
  nth_error data 0 = Some "w"%byte ->
  (26 <= length data)%nat ->
  let rc := Z.of_nat (length data) in
  let query := c_string (copybuf_of data) 25 in
  let answer :=
    SPI_execute env
      (trace w ++ [Ev_PQgetCopyData rc;
                   Ev_pgstat_report_activity (STATE_RUNNING query);
                   Ev_SetCurrentStatementStartTimestamp]) query in
  answer <> SPI_OK_INSERT pg ->
  answer <> SPI_OK_UPDATE pg ->
  answer <> SPI_OK_DELETE pg ->
  let applied :=
    [Ev_PQgetCopyData rc;
     Ev_pgstat_report_activity (STATE_RUNNING query);
     Ev_SetCurrentStatementStartTimestamp;
     Ev_SPI_execute query;
     Ev_ereport (LogApplyError query)] in
  receive_loop pg host env (data :: frames) final w =
  receive_loop pg host env frames final (extend w applied) /\
  receive_loop pg host env [data] final w =
  (Ret (copy_end_rc final),
   extend w (applied ++ [Ev_PQgetCopyData (copy_end_rc final)])) /\
  forall (w0 : world) (earlier : list (list byte)) (rc' : Z) (w2 : world),
    receive_loop pg host env (earlier ++ data :: frames) final
      (extend w0 cycle_prologue) =
    receive_loop pg host env (data :: frames) final w ->
    receive_loop pg host env frames final (extend w applied) = (Ret rc', w2) ->
    drain_cycle pg host env (earlier ++ data :: frames) final w0 =
    (Ret rc', extend w2 cycle_epilogue).
Proof.
  intros Htag Hlen rc query answer Hi Hu Hd applied.
  assert (Hne : data <> []) by (intros ->; discriminate Htag).
  assert (Hwal :
    waldata pg env rc (copybuf_of data) (extend w [Ev_PQgetCopyData rc]) =
    (Ret tt, extend w applied)).
  { rewrite waldata_failed.
    - rewrite extend_extend. reflexivity.
    - unfold rc. lia.
    - rewrite trace_extend, <- app_assoc. exact Hi.
    - rewrite trace_extend, <- app_assoc. exact Hu.
    - rewrite trace_extend, <- app_assoc. exact Hd. }
  assert (Hstep :
    process_message pg host env rc (copybuf_of data)
      (extend w [Ev_PQgetCopyData rc]) =
    (Ret tt, extend w applied)).
  { unfold process_message, read_byte.
    rewrite (nth_error_copybuf _ _ Htag). run_steps.
    change (Byte.eqb "w" "k") with false.
    change (Byte.eqb "w" "w") with true. cbn [negb]. exact Hwal. }
  assert (Hloop : forall fs,
    receive_loop pg host env (data :: fs) final w =
    receive_loop pg host env fs final (extend w applied)).
  { intros fs. rewrite receive_loop_cons by exact Hne. fold rc.
    erewrite run_bind_returned by exact Hstep. reflexivity. }
  split; [apply Hloop|]. split.
  - rewrite Hloop, receive_loop_nil, extend_extend. reflexivity.
  - intros w0 earlier rc' w2 Hearlier Hrest.
    rewrite drain_cycle_run, Hearlier, Hloop, Hrest. reflexivity.
Qed.

End Frames.

(** The run of C8 on the second of two identical INSERT statements of one
    drain cycle: the first succeeds, the second fails where it is
    executed and is only logged. *)
Lemma failed_statement_only_logged_witness :
  let query := ["I"; "N"; "S"]%byte in
  let data := "w"%byte :: repeat x00 24 ++ query in
  let env := insert_once_env in
  let w0 := extend (initial_world postgres_headers) cycle_prologue in
  let w := extend w0 [Ev_PQgetCopyData 28;
                      Ev_pgstat_report_activity (STATE_RUNNING query);
                      Ev_SetCurrentStatementStartTimestamp;
                      Ev_SPI_execute query;
                      Ev_ereport (LogInsert query)] in
  let applied :=
    [Ev_PQgetCopyData 28;
     Ev_pgstat_report_activity (STATE_RUNNING query);
     Ev_SetCurrentStatementStartTimestamp;
     Ev_SPI_execute query;
     Ev_ereport (LogApplyError query)] in
  receive_loop postgres_headers LittleEndian env [data; data] CopyNoData w0 =
  receive_loop postgres_headers LittleEndian env [data] CopyNoData w /\
  receive_loop postgres_headers LittleEndian env [data; data] CopyNoData w =
  receive_loop postgres_headers LittleEndian env [data] CopyNoData
    (extend w applied) /\
  receive_loop postgres_headers LittleEndian env [data] CopyNoData w =
  (Ret 0, extend w (applied ++ [Ev_PQgetCopyData 0])) /\
  drain_cycle postgres_headers LittleEndian env [data; data] CopyNoData
    (initial_world postgres_headers) =
  (Ret 0,
   extend (extend w (applied ++ [Ev_PQgetCopyData 0])) cycle_epilogue).
Proof.
  intros query data env w0 w applied.
  split; [reflexivity|].
  destruct (@failed_statement_only_logged postgres_headers LittleEndian env
              data [] CopyNoData w) as (_ & Hlast & Hcycle).
  - reflexivity.
  - cbn. lia.
  - cbn. discriminate.
  - cbn. discriminate.
  - cbn. discriminate.
  - split; [|split].
    + destruct (@failed_statement_only_logged postgres_headers LittleEndian
                  env data [data] CopyNoData w) as (Hnext & _).
      * reflexivity.
      * cbn. lia.
      * cbn. discriminate.
      * cbn. discriminate.
      * cbn. discriminate.
      * exact Hnext.
    + exact Hlast.
    + apply (Hcycle (initial_world postgres_headers) [data] 0
               (extend w (applied ++ [Ev_PQgetCopyData 0])));
        reflexivity.
Defined.

Section Keepalive.

Variable pg : pg_headers.
Variable host : endianness.
Variable env : environment.

(** C7 (as the code has it). A keepalive carrying position 500 with the
    reply flag set: the worker sets the written and the flushed position
    to the larger of 500 and the position it tracked, which is 500 when
    nothing higher was tracked (as on a fresh worker); then, before the
    next [PQgetCopyData] and with no commit in between, it reads the
    clock, logs the positions and hands libpq the feedback packet whose
    write and flush fields both hold that position. After the packet only
    the flush and a possible failure line follow; the loop then either
    goes on with the next message or, if the packet could not be sent, the
    process exits with status 1. *)
Theorem keepalive_reply_requested (data : list byte) (reply : byte)
  (frames : list (list byte)) (final : copy_end) (w : world) :
  nth_error data 0 = Some "k"%byte ->
  (18 <= length data)%nat ->
  fe_recvint64 host (copybuf_of data) 1 = Some 500 ->
  nth_error data 17 = Some reply ->
  reply <> x00 ->
  let rc := Z.of_nat (length data) in
  let position := Z.max 500 (output_written_lsn w) in
  let now :=
    timestamp_of_timeval pg
      (gettimeofday env (trace w ++ [Ev_PQgetCopyData rc])) in
  let packet :=
    "r"%byte :: be64 position ++ be64 position ++
    be64 (InvalidXLogRecPtr pg) ++ be64 now ++ [x00] in
  (output_written_lsn w <= 500 -> position = 500) /\
  exists (tail : list event) (w' : world),
    output_written_lsn w' = position /\
    output_fsync_lsn w' = position /\
    trace w' =
    trace w ++ [Ev_PQgetCopyData rc; Ev_gettimeofday;
                Ev_ereport (LogConfirming
                              (to_uint32 (Z.shiftr position 32))
                              (to_uint32 position)
                              (to_uint32 (Z.shiftr position 32))
                              (to_uint32 position));
                Ev_PQputCopyData packet] ++ tail /\
    Forall feedback_tail tail /\
    (receive_loop pg host env (data :: frames) final w =
     receive_loop pg host env frames final w' \/
     receive_loop pg host env (data :: frames) final w =
     (Stop (ProcExit 1), w')).
Proof.
  intros Htag Hlen Hpos Hreply Hset rc position now packet.
  split; [unfold position; lia|].
  assert (Hne : data <> []) by (intros ->; discriminate Htag).
  assert (Hmax : Max 500 (output_written_lsn w) = position)
    by apply Max_max.
  set (w1 := extend (observe 500 w) [Ev_PQgetCopyData rc; Ev_gettimeofday]).
  destruct (sendFeedback_run pg host env now w1)
    as (sent & tail & Esend & Htail).
  cbn zeta in Esend.
  assert (Ew : output_written_lsn w1 = position) by exact Hmax.
  assert (Ef : output_fsync_lsn w1 = position) by exact Hmax.
  rewrite Ew, Ef, feedback_message_layout in Esend. fold packet in Esend.
  set (confirming := Ev_ereport (LogConfirming
                                   (to_uint32 (Z.shiftr position 32))
                                   (to_uint32 position)
                                   (to_uint32 (Z.shiftr position 32))
                                   (to_uint32 position))) in *.
  set (w' := extend w1 ([confirming; Ev_PQputCopyData packet] ++ tail)) in *.
  exists tail, w'. repeat split; try assumption.
  - unfold w', w1. run_steps. cbn [observe trace].
    reflexivity.
  - rewrite receive_loop_cons by exact Hne. fold rc.
    unfold process_message, read_byte.
    rewrite (nth_error_copybuf _ _ Htag). run_steps.
    change (Byte.eqb "k" "k") with true. cbv iota.
    unfold keepalive, recvint64, read_byte. rewrite Hpos. run_steps.
    change (to_uint64 500) with 500.
    change (Z.of_nat (1 + 8 + 8) + 1) with 18.
    change (1 + 8 + 8)%nat with 17%nat.
    destruct (Z.ltb_spec rc 18) as [Hlt|_]; [unfold rc in Hlt; lia|].
    rewrite (nth_error_copybuf _ _ Hreply). run_steps.
    rewrite (byte_eqb_neq Hset). cbn [negb].
    unfold feGetCurrentTimestamp. run_steps.
    rewrite !observe_extend, !extend_extend, trace_extend. cbn [app].
    change (trace (observe 500 w)) with (trace w). fold now. fold w1.
    erewrite run_bind_returned by exact Esend.
    destruct sent; cbn [negb]; run_steps; [left | right]; reflexivity.
Qed.

(** C1 (what the code does). A keepalive message of fewer than eight
    bytes: [fe_recvint64(&copybuf[1])] runs before the length test and
    reads past the end of the buffer, which holds the message and its
    terminating zero byte. The worker has neither logged "streaming header
    too small" nor called [proc_exit] at that point. *)
Theorem keepalive_short_overread (data : list byte)
  (frames : list (list byte)) (final : copy_end) (w : world) :
  nth_error data 0 = Some "k"%byte ->
  (length data < 8)%nat ->
  receive_loop pg host env (data :: frames) final w =
  (Stop (ReadOutOfBounds (length data + 1)),
   extend w [Ev_PQgetCopyData (Z.of_nat (length data))]).
Proof.
  intros Htag Hlen.
  assert (Hne : data <> []) by (intros ->; discriminate Htag).
  rewrite receive_loop_cons by exact Hne.
  apply run_bind_stopped.
  unfold process_message, read_byte.
  rewrite (nth_error_copybuf _ _ Htag). run_steps.
  change (Byte.eqb "k" "k") with true. cbv iota.
  unfold keepalive, recvint64.
  rewrite fe_recvint64_None
    by (unfold copybuf_of; rewrite length_app; cbn [length]; lia).
  run_steps. unfold copybuf_of. rewrite length_app. reflexivity.
Qed.

(** A keepalive message of eight to seventeen bytes is rejected by the
    length test, after the tracker has been updated from its first eight
    bytes. *)
Lemma keepalive_short_rejected (data : list byte)
  (frames : list (list byte)) (final : copy_end) (w : world) :
  nth_error data 0 = Some "k"%byte ->
  (8 <= length data < 18)%nat ->
  let rc := Z.of_nat (length data) in
  exists walEnd,
    fe_recvint64 host (copybuf_of data) 1 = Some walEnd /\
    receive_loop pg host env (data :: frames) final w =
    (Stop (ProcExit 1),
     extend (observe (to_uint64 walEnd) w)
            [Ev_PQgetCopyData rc; Ev_ereport (LogKeepaliveTooSmall rc)]).
Proof.
  intros Htag Hlen rc.
  assert (Hne : data <> []) by (intros ->; discriminate Htag).
  assert (Hbuf : (1 + 8 <= length (copybuf_of data))%nat)
    by (unfold copybuf_of; rewrite length_app; cbn [length]; lia).
  destruct (buffer_split (copybuf_of data) 1 8 Hbuf)
    as (mid & Ebuf & Hpre & Hmid).
  destruct (list_of_length8 mid Hmid)
    as (b0 & b1 & b2 & b3 & b4 & b5 & b6 & b7 & ->).
  pose proof (fe_recvint64_value host (firstn 1 (copybuf_of data))
                (skipn (1 + 8) (copybuf_of data)) b0 b1 b2 b3 b4 b5 b6 b7)
    as Hrecv.
  rewrite <- Ebuf, Hpre in Hrecv.
  eexists. split; [exact Hrecv|].
  rewrite receive_loop_cons by exact Hne. fold rc.
  apply run_bind_stopped.
  unfold process_message, read_byte.
  rewrite (nth_error_copybuf _ _ Htag). run_steps.
  change (Byte.eqb "k" "k") with true. cbv iota.
  unfold keepalive, recvint64. rewrite Hrecv. run_steps.
  change (Z.of_nat (1 + 8 + 8) + 1) with 18.
  destruct (Z.ltb_spec rc 18) as [_|Hge]; [|unfold rc in Hge; lia].
  run_steps. rewrite observe_extend, extend_extend. reflexivity.
Qed.

(** The calls of one statement, whatever [SPI_execute] answers. *)
Lemma waldata_applied (rc : Z) (copybuf : list byte) (w : world) :
  26 <= rc ->
  let query := c_string copybuf 25 in
  exists m,
    waldata pg env rc copybuf w =
    (Ret tt, extend w [Ev_pgstat_report_activity (STATE_RUNNING query);
                       Ev_SetCurrentStatementStartTimestamp;
                       Ev_SPI_execute query;
                       Ev_ereport m]).
Proof.
  intros Hrc query. unfold waldata.
  change (Z.of_nat (1 + 8 + 8 + 8) + 1) with 26.
  change (1 + 8 + 8 + 8)%nat with 25%nat. fold query.
  destruct (Z.ltb_spec rc 26) as [Hlt|_]; [lia|].
  run_steps.
  destruct (_ =? SPI_OK_INSERT pg);
    [|destruct (_ =? SPI_OK_UPDATE pg); [|destruct (_ =? SPI_OK_DELETE pg)]];
    eexists; run_steps; reflexivity.
Qed.

(** C3 (as the code has it). The length test of a WalData message is
    [rc < hdr_len + 1] with [hdr_len] = 25: a message of 25 bytes or
    fewer, the bare header included, is rejected with "Streaming header
    too small" and the process exits with status 1 before anything is
    executed; a message of at least 26 bytes, header and one byte of
    statement, has the C string after its header executed and logged, and
    the loop goes on. *)
Theorem waldata_header_check (data : list byte)
  (frames : list (list byte)) (final : copy_end) (w : world) :
  nth_error data 0 = Some "w"%byte ->
  let rc := Z.of_nat (length data) in
  let query := c_string (copybuf_of data) 25 in
  (rc < 26 ->
   receive_loop pg host env (data :: frames) final w =
   (Stop (ProcExit 1),
    extend w [Ev_PQgetCopyData rc; Ev_ereport LogHeaderTooSmall])) /\
  (26 <= rc ->
   exists m,
     receive_loop pg host env (data :: frames) final w =
     receive_loop pg host env frames final
       (extend w [Ev_PQgetCopyData rc;
                  Ev_pgstat_report_activity (STATE_RUNNING query);
                  Ev_SetCurrentStatementStartTimestamp;
                  Ev_SPI_execute query;
                  Ev_ereport m])).
Proof.
  intros Htag rc query.
  assert (Hne : data <> []) by (intros ->; discriminate Htag).
  assert (Hstep : forall w0,
    process_message pg host env rc (copybuf_of data) w0 =
    waldata pg env rc (copybuf_of data) w0).
  { intros w0. unfold process_message, read_byte.
    rewrite (nth_error_copybuf _ _ Htag). run_steps.
    change (Byte.eqb "w" "k") with false.
    change (Byte.eqb "w" "w") with true. reflexivity. }
  split; intros Hrc; rewrite receive_loop_cons by exact Hne; fold rc.
  - apply run_bind_stopped. rewrite Hstep. unfold waldata.
    change (Z.of_nat (1 + 8 + 8 + 8) + 1) with 26.
    destruct (Z.ltb_spec rc 26) as [_|Hge]; [|lia].
    run_steps. reflexivity.
  - destruct (waldata_applied (copybuf_of data)
                (extend w [Ev_PQgetCopyData rc]) Hrc) as (m & Em).
    exists m. erewrite run_bind_returned by (rewrite Hstep; exact Em).
    rewrite extend_extend. reflexivity.
Qed.

End Keepalive.

(** The run of C7 on a fresh worker: an 18-byte keepalive for position
    500 with the reply flag set. *)
Lemma keepalive_reply_requested_witness :
  let data := "k"%byte :: be64 500 ++ repeat x00 8 ++ ["001"%byte] in
  let env := fixed_env 0 0 7 in
  let w := initial_world postgres_headers in
  let position := Z.max 500 (output_written_lsn w) in
  let now :=
    timestamp_of_timeval postgres_headers
      (gettimeofday env (trace w ++ [Ev_PQgetCopyData 18])) in
  let packet :=
    "r"%byte :: be64 position ++ be64 position ++
    be64 (InvalidXLogRecPtr postgres_headers) ++ be64 now ++ [x00] in
  (output_written_lsn w <= 500 -> position = 500) /\
  exists (tail : list event) (w' : world),
    output_written_lsn w' = position /\
    output_fsync_lsn w' = position /\
    trace w' =
    trace w ++ [Ev_PQgetCopyData 18; Ev_gettimeofday;
                Ev_ereport (LogConfirming
                              (to_uint32 (Z.shiftr position 32))
                              (to_uint32 position)
                              (to_uint32 (Z.shiftr position 32))
                              (to_uint32 position));
                Ev_PQputCopyData packet] ++ tail /\
    Forall feedback_tail tail /\
    (receive_loop postgres_headers LittleEndian env [data] CopyNoData w =
     receive_loop postgres_headers LittleEndian env [] CopyNoData w' \/
     receive_loop postgres_headers LittleEndian env [data] CopyNoData w =
     (Stop (ProcExit 1), w')).
Proof.
  intros data env w position now packet.
  apply (@keepalive_reply_requested postgres_headers LittleEndian env
           data "001"%byte [] CopyNoData w).
  - reflexivity.
  - cbn. lia.
  - vm_compute. reflexivity.
  - reflexivity.
  - discriminate.
Defined.

(** C7, as stated, fails on the code: when the worker already tracks
    position 700, a keepalive for position 500 with the reply flag set
    leaves the written and flushed positions at 700, and the packet sent
    carries write = flush = 700, not 500. *)
Lemma keepalive_reply_keeps_higher_position :
  let data := "k"%byte :: be64 500 ++ repeat x00 8 ++ ["001"%byte] in
  let w := mkWorld 700 700 false false [] in
  let run := receive_loop postgres_headers LittleEndian (fixed_env 0 0 7)
               [data] CopyNoData w in
  let packet (position : Z) :=
    "r"%byte :: be64 position ++ be64 position ++ be64 0 ++
    be64 (timestamp_of_timeval postgres_headers (0, 0)) ++ [x00] in
  fe_recvint64 LittleEndian (copybuf_of data) 1 = Some 500 /\
  output_written_lsn (snd run) = 700 /\
  output_fsync_lsn (snd run) = 700 /\
  In (Ev_PQputCopyData (packet 700)) (trace (snd run)) /\
  ~ In (Ev_PQputCopyData (packet 500)) (trace (snd run)).
Proof.
  vm_compute. repeat split; auto 10.
  intros H. repeat (destruct H as [H|H]; [discriminate H|]). exact H.
Qed.

(** The run of C1 on the one-byte message ['k']: the read at offset 2 of
    a two-byte buffer. *)
Lemma keepalive_short_overread_witness :
  receive_loop postgres_headers LittleEndian (fixed_env 0 0 7)
    [["k"%byte]] CopyNoData (initial_world postgres_headers) =
  (Stop (ReadOutOfBounds 2),
   extend (initial_world postgres_headers) [Ev_PQgetCopyData 1]).
Proof.
  apply (@keepalive_short_overread postgres_headers LittleEndian
           (fixed_env 0 0 7) ["k"%byte] [] CopyNoData
           (initial_world postgres_headers)).
  - reflexivity.
  - cbn. lia.
Defined.

(** C3, as stated, fails on the code: a WalData message that is exactly
    the 25-byte header is not decoded with an empty statement; the worker
    logs "Streaming header too small" and exits with status 1. *)
Lemma waldata_header_only_rejected :
  receive_loop postgres_headers LittleEndian (fixed_env 0 0 7)
    [("w"%byte :: repeat x00 24)] CopyNoData (initial_world postgres_headers) =
  (Stop (ProcExit 1),
   extend (initial_world postgres_headers)
          [Ev_PQgetCopyData 25; Ev_ereport LogHeaderTooSmall]).
Proof. reflexivity. Qed.

(** The run of C3 on a 26-byte message: ['w'], 24 header bytes and the
    statement [";"]. *)
Lemma waldata_header_check_witness :
  let data := "w"%byte :: repeat x00 24 ++ [";"%byte] in
  let env := fixed_env 0 0 7 in
  let w := initial_world postgres_headers in
  (26 < 26 ->
   receive_loop postgres_headers LittleEndian env [data] CopyNoData w =
   (Stop (ProcExit 1),
    extend w [Ev_PQgetCopyData 26; Ev_ereport LogHeaderTooSmall])) /\
  (26 <= 26 ->
   exists m,
     receive_loop postgres_headers LittleEndian env [data] CopyNoData w =
     receive_loop postgres_headers LittleEndian env [] CopyNoData
       (extend w [Ev_PQgetCopyData 26;
                  Ev_pgstat_report_activity (STATE_RUNNING [";"%byte]);
                  Ev_SetCurrentStatementStartTimestamp;
                  Ev_SPI_execute [";"%byte];
                  Ev_ereport m])).
Proof.
  intros data env w.
  apply (@waldata_header_check postgres_headers LittleEndian env
           data [] CopyNoData w).
  reflexivity.
Defined.

(** A WalData message of 26 bytes, one byte of statement, is applied. *)
Example waldata_one_byte_applied :
  receive_loop postgres_headers LittleEndian (fixed_env 0 0 7)
    [("w"%byte :: repeat x00 24 ++ [";"%byte])] CopyNoData
    (initial_world postgres_headers) =
  (Ret 0,
   extend (initial_world postgres_headers)
          [Ev_PQgetCopyData 26;
           Ev_pgstat_report_activity (STATE_RUNNING [";"%byte]);
           Ev_SetCurrentStatementStartTimestamp;
           Ev_SPI_execute [";"%byte];
           Ev_ereport (LogInsert [";"%byte]);
           Ev_PQgetCopyData 0]).
Proof. reflexivity. Qed.

(** ** Whole sessions *)

(** A session whose connection attempt fails. *)
Example session_connection_failed :
  receiver_raw_main postgres_headers LittleEndian (fixed_env 946684800 0 7)
    {| connection_ok := false; copy_both := true; wakeups := [] |}
    (initial_world postgres_headers) =
  (Stop (ProcExit 1),
   extend (initial_world postgres_headers)
     [Ev_pqsignal SIGHUP; Ev_pqsignal SIGTERM;
      Ev_BackgroundWorkerUnblockSignals;
      Ev_BackgroundWorkerInitializeConnection; Ev_PQconnectdb;
      Ev_PQfinish; Ev_ereport LogConnectionFailed]).
Proof. reflexivity. Qed.

(** A session that receives one statement and then no data: the statement
    is applied and committed in one transaction, the worker blocks in
    [select] for one second, and a SIGTERM arriving there makes it leave
    the loop and exit with status 0 without another pass. *)
Example session_insert_then_sigterm :
  let query := ["I"; "N"; "S"; "E"; "R"; "T"]%byte in
  let wk := {| latch_signals := []; latch_rc := 1;
               copy_frames := ["w"%byte :: repeat x00 24 ++ query];
               copy_final := CopyNoData;
               select_signals := [SIGTERM]; select_r := -1;
               select_eintr := true; consume_rc := 1 |} in
  receiver_raw_main postgres_headers LittleEndian (fixed_env 946684800 0 7)
    {| connection_ok := true; copy_both := true; wakeups := [wk; wk] |}
    (initial_world postgres_headers) =
  (Stop (ProcExit 0),
   mkWorld 0 0 true false
     ([Ev_pqsignal SIGHUP; Ev_pqsignal SIGTERM;
       Ev_BackgroundWorkerUnblockSignals;
       Ev_BackgroundWorkerInitializeConnection; Ev_PQconnectdb;
       Ev_PQexec_START_REPLICATION; Ev_PQclear;
       Ev_WaitLatch; Ev_ResetLatch] ++ cycle_prologue ++
      [Ev_PQgetCopyData 31;
       Ev_pgstat_report_activity (STATE_RUNNING query);
       Ev_SetCurrentStatementStartTimestamp;
       Ev_SPI_execute query;
       Ev_ereport (LogInsert query);
       Ev_PQgetCopyData 0] ++ cycle_epilogue ++
      [Ev_gettimeofday; Ev_select 1 0; Ev_SetLatch])).
Proof. vm_compute. reflexivity. Qed.

(** The statement of that session is the one committed statement. *)
Example session_insert_committed :
  let query := ["I"; "N"; "S"; "E"; "R"; "T"]%byte in
  committed_statements
    (cycle_prologue ++
     [Ev_PQgetCopyData 31;
      Ev_pgstat_report_activity (STATE_RUNNING query);
      Ev_SetCurrentStatementStartTimestamp;
      Ev_SPI_execute query;
      Ev_ereport (LogInsert query);
      Ev_PQgetCopyData 0] ++ cycle_epilogue) = [query].
Proof. reflexivity. Qed.

(* ===================================================================== *)
(** * hook_utility: when the hook raises *)
(* ===================================================================== *)

Module HookUtilityFacts.

Import HookUtility.

Lemma compare_refl (s : string) : String.compare s s = Eq.
Proof.
  pose proof (String.compare_antisym s s) as H.
  destruct (String.compare s s); [reflexivity | discriminate H | discriminate H].
Qed.

Lemma strcmp_eqb (a b : string) : (strcmp a b =? 0) = String.eqb a b.
Proof.
  unfold strcmp. destruct (String.eqb_spec a b) as [->|Hne].
  - rewrite compare_refl. reflexivity.
  - destruct (String.compare a b) eqn:E; [|reflexivity|reflexivity].
    apply String.compare_eq_iff in E. contradiction.
Qed.

(** C9. [dbrestrict_utility] is one test on its arguments and the two
    parameters: it raises the insufficient-privilege error exactly when
    the statement is a DROP DATABASE naming [hook_dbname] and the current
    user name differs from [hook_username]; in every other case it raises
    nothing and ends in the previous hook or in
    [standard_ProcessUtility]. *)
Theorem dbrestrict_utility_restricts (st : hook_state) (parsetree : Node)
  (username : string) :
  dbrestrict_utility st parsetree username =
  (if isRestricted st (fst (statement_of parsetree))
                   (snd (statement_of parsetree)) username
   then Ereport_ERROR ERRCODE_INSUFFICIENT_PRIVILEGE
                      (hook_username st) (hook_dbname st)
   else fallback st) /\
  (raises_error (dbrestrict_utility st parsetree username) <->
   nodeTag parsetree = T_DropdbStmt /\
   exists stmt, parsetree = Node_DropdbStmt stmt /\
                dbname stmt = hook_dbname st /\
                username <> hook_username st) /\
  (~ raises_error (fallback st)).
Proof.
  split; [|split].
  - destruct parsetree as [stmt|tag]; cbn; [|reflexivity].
    rewrite !strcmp_eqb. reflexivity.
  - destruct parsetree as [stmt|tag]; cbn.
    + rewrite !strcmp_eqb.
      destruct (String.eqb_spec (dbname stmt) (hook_dbname st)) as [Hd|Hd];
        destruct (String.eqb_spec username (hook_username st)) as [Hu|Hu];
        cbn; unfold fallback.
      * split; [destruct (prev_utility_hook st); intros []|].
        intros (_ & s & _ & _ & Hne). contradiction.
      * split; [|intros _; exact I].
        intros _. split; [reflexivity|]. exists stmt. auto.
      * split; [destruct (prev_utility_hook st); intros []|].
        intros (_ & s & [= <-] & He & _). contradiction.
      * split; [destruct (prev_utility_hook st); intros []|].
        intros (_ & s & [= <-] & He & _). contradiction.
    + unfold fallback.
      split; [destruct (prev_utility_hook st); intros []|].
      intros (Ht & _). discriminate Ht.
  - unfold fallback. destruct (prev_utility_hook st); intros [].
Qed.

End HookUtilityFacts.

(* ===================================================================== *)
(** * Further properties: the stream functions *)
(* ===================================================================== *)

Lemma value_of_octets8 (b0 b1 b2 b3 b4 b5 b6 b7 : byte) :
  value_of_octets [b0; b1; b2; b3; b4; b5; b6; b7] =
  value_of_octets [b0; b1; b2; b3] * 2 ^ 32 + value_of_octets [b4; b5; b6; b7].
Proof. unfold value_of_octets. cbn [fold_left]. lia. Qed.

Lemma to_uint64_of_halves (h l : Z) :
  0 <= h < 2 ^ 32 -> 0 <= l < 2 ^ 32 ->
  to_uint64 (to_int64 (h * 2 ^ 32) + l) = h * 2 ^ 32 + l.
Proof.
  unfold to_uint64, to_int64. intros Hh Hl.
  change (2 ^ 63) with 9223372036854775808.
  change (2 ^ 64) with 18446744073709551616.
  change (2 ^ 32) with 4294967296 in *.
  Z.div_mod_to_equations. lia.
Qed.

Lemma int64_range_of_halves (h l : Z) :
  0 <= h < 2 ^ 32 -> 0 <= l < 2 ^ 32 ->
  int64_range (to_int64 (h * 2 ^ 32) + l).
Proof.
  unfold int64_range, to_int64. intros Hh Hl.
  change (2 ^ 63) with 9223372036854775808.
  change (2 ^ 64) with 18446744073709551616.
  change (2 ^ 32) with 4294967296 in *.
  Z.div_mod_to_equations. lia.
Qed.

(** X1. [fe_sendint64] writes exactly the eight bytes at the offset it is
    given: the buffer keeps its length, the bytes before and after the
    field are unchanged, the field holds the big-endian layout of the
    value, and the result is the same on big- and little-endian hosts. *)
Theorem fe_sendint64_frame (host : endianness) (i : Z) (buf : list byte)
  (off : nat) :
  (off + 8 <= length buf)%nat ->
  let buf' := fe_sendint64 host i buf off in
  length buf' = length buf /\
  firstn off buf' = firstn off buf /\
  skipn (off + 8) buf' = skipn (off + 8) buf /\
  firstn 8 (skipn off buf') = be64 i /\
  fe_sendint64 BigEndian i buf off = fe_sendint64 LittleEndian i buf off.
Proof.
  intros Hlen buf'. unfold buf'.
  rewrite !fe_sendint64_layout by exact Hlen.
  assert (Hpre : length (firstn off buf) = off)
    by (rewrite length_firstn; lia).
  set (pre := firstn off buf) in *. set (post := skipn (off + 8) buf).
  repeat split.
  - rewrite !length_app, be64_length, Hpre. unfold post.
    rewrite length_skipn. lia.
  - rewrite firstn_app, <- Hpre, firstn_all, Nat.sub_diag. cbn [firstn].
    apply app_nil_r.
  - rewrite app_assoc.
    replace (off + 8)%nat with (length (pre ++ be64 i) + 0)%nat
      by (rewrite length_app, be64_length, Hpre; lia).
    rewrite skipn_app, skipn_all2 by lia.
    replace (length (pre ++ be64 i) + 0 - length (pre ++ be64 i))%nat
      with 0%nat by lia.
    reflexivity.
  - rewrite skipn_app, <- Hpre, skipn_all, Nat.sub_diag. cbn [skipn app].
    unfold be64. cbn [map app firstn]. reflexivity.
Qed.

(** Writing -2 at offset 1 of a ten-byte buffer. *)
Lemma fe_sendint64_frame_witness :
  let buf := repeat "007"%byte 10 in
  let buf' := fe_sendint64 LittleEndian (-2) buf 1 in
  length buf' = length buf /\
  firstn 1 buf' = firstn 1 buf /\
  skipn (1 + 8) buf' = skipn (1 + 8) buf /\
  firstn 8 (skipn 1 buf') = be64 (-2) /\
  fe_sendint64 BigEndian (-2) buf 1 = fe_sendint64 LittleEndian (-2) buf 1.
Proof.
  intros buf.
  apply (@fe_sendint64_frame LittleEndian (-2) buf 1).
  cbn. lia.
Defined.

Lemma fe_recvint64_in_bounds (host : endianness) (buf : list byte)
  (off : nat) :
  (off + 8 <= length buf)%nat ->
  exists v, fe_recvint64 host buf off = Some v.
Proof.
  intros Hlen.
  destruct (buffer_split buf off 8 Hlen) as (mid & Ebuf & Hpre & Hmid).
  destruct (list_of_length8 mid Hmid)
    as (b0 & b1 & b2 & b3 & b4 & b5 & b6 & b7 & ->).
  pose proof (fe_recvint64_value host (firstn off buf) (skipn (off + 8) buf)
                b0 b1 b2 b3 b4 b5 b6 b7) as Hrecv.
  rewrite <- Ebuf, Hpre in Hrecv. eexists. exact Hrecv.
Qed.

(** X2. [fe_recvint64] on a buffer that holds the eight bytes: the result
    is an [int64] whose unsigned reading is the number the eight bytes
    spell most significant byte first, on either kind of host. *)
Theorem fe_recvint64_big_endian (host : endianness) (buf : list byte)
  (off : nat) :
  (off + 8 <= length buf)%nat ->
  exists v,
    fe_recvint64 host buf off = Some v /\
    int64_range v /\
    to_uint64 v = value_of_octets (firstn 8 (skipn off buf)).
Proof.
  intros Hlen.
  destruct (buffer_split buf off 8 Hlen) as (mid & Ebuf & Hpre & Hmid).
  destruct (list_of_length8 mid Hmid)
    as (b0 & b1 & b2 & b3 & b4 & b5 & b6 & b7 & ->).
  set (pre := firstn off buf) in *. set (post := skipn (off + 8) buf) in *.
  pose proof (fe_recvint64_value host pre post b0 b1 b2 b3 b4 b5 b6 b7)
    as Hrecv.
  rewrite <- Ebuf, Hpre in Hrecv.
  pose proof (value_of_octets4_range b0 b1 b2 b3) as Hh.
  pose proof (value_of_octets4_range b4 b5 b6 b7) as Hl.
  eexists. split; [exact Hrecv|]. split.
  - apply int64_range_of_halves; assumption.
  - rewrite to_uint64_of_halves by assumption.
    rewrite Ebuf, skipn_app, <- Hpre, skipn_all, Nat.sub_diag.
    cbn [skipn app firstn]. symmetry. apply value_of_octets8.
Qed.

(** Reading the field of a nine-byte buffer whose top bit is set. *)
Lemma fe_recvint64_big_endian_witness :
  exists v,
    fe_recvint64 LittleEndian ("k"%byte :: repeat "255"%byte 8) 1 = Some v /\
    int64_range v /\
    to_uint64 v =
    value_of_octets (firstn 8 (skipn 1 ("k"%byte :: repeat "255"%byte 8))).
Proof.
  apply (@fe_recvint64_big_endian LittleEndian
           ("k"%byte :: repeat "255"%byte 8) 1).
  cbn. lia.
Defined.

(** X3. [fe_recvint64] reads past the end of the buffer exactly when fewer
    than eight bytes are left at the offset. *)
Theorem fe_recvint64_out_of_bounds (host : endianness) (buf : list byte)
  (off : nat) :
  fe_recvint64 host buf off = None <-> (length buf < off + 8)%nat.
Proof.
  split.
  - intros Hnone. destruct (Nat.lt_ge_cases (length buf) (off + 8))
      as [Hlt|Hge]; [exact Hlt|].
    destruct (fe_recvint64_in_bounds host buf off Hge) as (v & Ev).
    rewrite Ev in Hnone. discriminate Hnone.
  - apply fe_recvint64_None.
Qed.

(* ===================================================================== *)
(** * Further properties: timestamps *)
(* ===================================================================== *)

Lemma timestamp_of_timeval_range (pg : pg_headers) (tp : Z * Z) :
  int64_range (timestamp_of_timeval pg tp).
Proof. destruct tp as [s u]. apply to_int64_range. Qed.

Lemma feTimestampDifference_bounds (start_time stop_time : Z) :
  let '(secs, usecs) :=
    feTimestampDifference postgres_headers start_time stop_time in
  0 <= secs /\ 0 <= usecs < 1000000 /\
  secs * 1000000 + usecs = Z.max 0 (to_int64 (stop_time - start_time)).
Proof.
  unfold feTimestampDifference. cbn [USECS_PER_SEC postgres_headers].
  set (diff := to_int64 (stop_time - start_time)).
  destruct (Z.leb_spec diff 0) as [Hle|Hgt]; [lia|].
  rewrite Z.quot_div_nonneg, Z.rem_mod_nonneg by lia.
  Z.div_mod_to_equations. lia.
Qed.

(** X4. [feTimestampDifference] splits the time from [start_time] to
    [stop_time] into whole seconds and microseconds below one million, and
    gives zero seconds and zero microseconds when [stop_time] is not after
    [start_time]. *)
Theorem feTimestampDifference_split (start_time stop_time : Z) :
  int64_range (stop_time - start_time) ->
  let '(secs, usecs) :=
    feTimestampDifference postgres_headers start_time stop_time in
  0 <= secs /\ 0 <= usecs < 1000000 /\
  secs * 1000000 + usecs = Z.max 0 (stop_time - start_time).
Proof.
  intros Hr.
  pose proof (feTimestampDifference_bounds start_time stop_time) as H.
  rewrite (to_int64_id Hr) in H. exact H.
Qed.

(** Two and a half seconds, and a stop before the start. *)
Lemma feTimestampDifference_split_witness :
  let '(secs, usecs) := feTimestampDifference postgres_headers 1000 2501000 in
  0 <= secs /\ 0 <= usecs < 1000000 /\
  secs * 1000000 + usecs = Z.max 0 (2501000 - 1000).
Proof.
  apply (@feTimestampDifference_split 1000 2501000).
  unfold int64_range. lia.
Defined.

(** X5. [feGetCurrentTimestamp] turns the time of [gettimeofday] into
    microseconds since 2000-01-01 00:00:00 UTC, the PostgreSQL epoch,
    946684800 seconds after the Unix epoch; it makes no other call. *)
Theorem feGetCurrentTimestamp_epoch (env : environment) (w : world)
  (tv_sec tv_usec : Z) :
  gettimeofday env (trace w) = (tv_sec, tv_usec) ->
  - 2 ^ 40 <= tv_sec < 2 ^ 40 ->
  0 <= tv_usec < 1000000 ->
  feGetCurrentTimestamp postgres_headers env w =
  (Ret ((tv_sec - 946684800) * 1000000 + tv_usec), extend w [Ev_gettimeofday]).
Proof.
  intros Hclock Hsec Husec. unfold feGetCurrentTimestamp. run_steps.
  rewrite Hclock. unfold timestamp_of_timeval.
  cbn [POSTGRES_EPOCH_JDATE UNIX_EPOCH_JDATE SECS_PER_DAY USECS_PER_SEC
       postgres_headers].
  change ((2451545 - 2440588) * 86400) with 946684800.
  change (2 ^ 40) with 1099511627776 in Hsec.
  rewrite (@to_int64_id (tv_sec - 946684800))
    by (unfold int64_range; change (2 ^ 63) with 9223372036854775808; lia).
  rewrite to_int64_id
    by (unfold int64_range; change (2 ^ 63) with 9223372036854775808; lia).
  reflexivity.
Qed.

(** One second and five microseconds after the PostgreSQL epoch. *)
Lemma feGetCurrentTimestamp_epoch_witness :
  feGetCurrentTimestamp postgres_headers (fixed_env 946684801 5 7)
    (initial_world postgres_headers) =
  (Ret ((946684801 - 946684800) * 1000000 + 5),
   extend (initial_world postgres_headers) [Ev_gettimeofday]).
Proof.
  apply (@feGetCurrentTimestamp_epoch (fixed_env 946684801 5 7)
           (initial_world postgres_headers) 946684801 5).
  - reflexivity.
  - cbn. lia.
  - lia.
Defined.

(* ===================================================================== *)
(** * Further properties: runs of the worker *)
(* ===================================================================== *)

Lemma behaves_weaken (A : Type) (P P' : event -> Prop) (Q Q' : stop -> Prop)
  (m : M A) :
  (forall e, P e -> P' e) -> (forall s, Q s -> Q' s) ->
  behaves P Q m -> behaves P' Q' m.
Proof.
  intros HP HQ Hm w. destruct (Hm w) as [(evs & Et & Hevs) Hstop].
  split; [|intros s Hs; apply HQ, Hstop, Hs].
  exists evs. split; [exact Et|].
  eapply Forall_impl; [exact HP | exact Hevs].
Qed.

(** ** Combinators for [keeps] *)

Section Keeps.

Variable R : world -> world -> Prop.
Hypothesis R_refl : forall w, R w w.
Hypothesis R_trans : forall w1 w2 w3, R w1 w2 -> R w2 w3 -> R w1 w3.

Lemma keeps_ret (A : Type) (a : A) : keeps R (ret a).
Proof. intros w. apply R_refl. Qed.

Lemma keeps_gets (A : Type) (f : world -> A) : keeps R (gets f).
Proof. intros w. apply R_refl. Qed.

Lemma keeps_stop_with (A : Type) (s : stop) : keeps R (@stop_with A s).
Proof. intros w. apply R_refl. Qed.

Lemma keeps_proc_exit (A : Type) (status : Z) : keeps R (@proc_exit A status).
Proof. intros w. apply R_refl. Qed.

Lemma keeps_modify (f : world -> world) :
  (forall w, R w (f w)) -> keeps R (modify f).
Proof. intros Hf w. apply Hf. Qed.

Lemma keeps_bind (A B : Type) (m : M A) (k : A -> M B) :
  keeps R m -> (forall a, keeps R (k a)) -> keeps R (bind m k).
Proof.
  intros Hm Hk w. unfold bind. specialize (Hm w).
  destruct (m w) as [[a|s] w1]; cbn in *; [|exact Hm].
  eapply R_trans; [exact Hm | apply Hk].
Qed.

End Keeps.

(** ** The tracked positions never go back *)

Lemma positions_advance_refl (w : world) : positions_advance w w.
Proof. split; [lia | auto]. Qed.

Lemma positions_advance_trans (w1 w2 w3 : world) :
  positions_advance w1 w2 -> positions_advance w2 w3 ->
  positions_advance w1 w3.
Proof. intros [H1 H1'] [H2 H2']. split; [lia | auto]. Qed.

Lemma positions_advance_same (w w' : world) :
  output_written_lsn w' = output_written_lsn w ->
  output_fsync_lsn w' = output_fsync_lsn w ->
  positions_advance w w'.
Proof. intros Hw Hf. split; [lia | congruence]. Qed.

Lemma positions_advance_observe (p : Z) (w : world) :
  positions_advance w (observe p w).
Proof.
  split; cbn [observe output_written_lsn output_fsync_lsn];
    [rewrite Max_max; lia | reflexivity].
Qed.

(** Walks through an action for [keeps positions_advance]. *)
Ltac positions_steps :=
  repeat first
    [ solve [auto with worker nocore]
    | apply (keeps_bind positions_advance_trans); [|intros ?]
    | apply (keeps_ret _ positions_advance_refl)
    | apply (keeps_gets _ positions_advance_refl)
    | apply (keeps_proc_exit _ positions_advance_refl)
    | apply (keeps_stop_with _ positions_advance_refl)
    | apply keeps_modify; intros ?;
      solve [apply positions_advance_same; reflexivity
            | apply positions_advance_observe]
    | match goal with
      | |- keeps _ (if ?c then _ else _) => destruct c
      | |- keeps _ (let '(_, _) := ?p in _) => destruct p
      | |- keeps _ (match ?x with _ => _ end) => destruct x
      end ].

Section PositionsAdvance.

Variable pg : pg_headers.
Variable host : endianness.
Variable env : environment.

Lemma positions_sendFeedback (now : Z) :
  keeps positions_advance (sendFeedback pg host env now).
Proof. unfold sendFeedback, emit. positions_steps. Qed.

Lemma positions_feGetCurrentTimestamp :
  keeps positions_advance (feGetCurrentTimestamp pg env).
Proof. unfold feGetCurrentTimestamp, emit. positions_steps. Qed.

#[local] Hint Resolve positions_sendFeedback positions_feGetCurrentTimestamp
  : worker.

Lemma positions_process_message (rc : Z) (copybuf : list byte) :
  keeps positions_advance (process_message pg host env rc copybuf).
Proof.
  unfold process_message, keepalive, waldata, recvint64, read_byte, emit.
  positions_steps.
Qed.

#[local] Hint Resolve positions_process_message : worker.

Lemma positions_receive_loop (frames : list (list byte)) (final : copy_end) :
  keeps positions_advance (receive_loop pg host env frames final).
Proof.
  induction frames as [|data frames IH]; cbn [receive_loop]; unfold emit;
    positions_steps.
Qed.

Lemma positions_deliver_all (l : list signal) :
  keeps positions_advance (deliver_all l).
Proof.
  induction l as [|s l IH]; cbn [deliver_all];
    unfold deliver, receiver_raw_sighup, receiver_raw_sigterm,
      set_got_sighup, set_got_sigterm, emit; positions_steps.
Qed.

#[local] Hint Resolve positions_receive_loop positions_deliver_all : worker.

Lemma positions_main_iteration (wk : wakeup) :
  keeps positions_advance (main_iteration pg host env wk).
Proof.
  unfold main_iteration, drain_cycle, wait_for_data, set_got_sighup, emit.
  positions_steps.
Qed.

#[local] Hint Resolve positions_main_iteration : worker.

Lemma positions_main_loop (script : list wakeup) :
  keeps positions_advance (main_loop pg host env script).
Proof.
  induction script as [|wk script IH]; cbn [main_loop]; positions_steps.
Qed.

#[local] Hint Resolve positions_main_loop : worker.

Lemma positions_receiver_raw_main (s : session) :
  keeps positions_advance (receiver_raw_main pg host env s).
Proof. unfold receiver_raw_main, emit. positions_steps. Qed.

(** X6. Over a whole session, whatever the server sends and whenever the
    worker stops, the written position never goes back; and started with
    the flushed position equal to the written one, as the worker is, it
    ends with them equal. *)
Theorem positions_never_go_back (s : session) :
  (forall w,
     output_written_lsn w <=
     output_written_lsn (snd (receiver_raw_main pg host env s w))) /\
  (forall (p : Z) (sigterm sighup : bool) (tr : list event),
     let w' := snd (receiver_raw_main pg host env s
                      (mkWorld p p sigterm sighup tr)) in
     output_fsync_lsn w' = output_written_lsn w') /\
  (let w' := snd (receiver_raw_main pg host env s (initial_world pg)) in
   InvalidXLogRecPtr pg <= output_written_lsn w' /\
   output_fsync_lsn w' = output_written_lsn w').
Proof.
  split; [|split].
  - intros w. apply positions_receiver_raw_main.
  - intros p sigterm sighup tr w'.
    apply (positions_receiver_raw_main s (mkWorld p p sigterm sighup tr)).
    reflexivity.
  - split.
    + apply (positions_receiver_raw_main s (initial_world pg)).
    + apply (positions_receiver_raw_main s (initial_world pg)). reflexivity.
Qed.

End PositionsAdvance.

(** ** The calls of the inner loop *)

Section LoopEvents.

Variable pg : pg_headers.
Variable host : endianness.
Variable env : environment.

Lemma message_sendFeedback (now : Z) :
  behaves message_event any_stop (sendFeedback pg host env now).
Proof. unfold sendFeedback. behaves_steps. Qed.

Lemma message_feGetCurrentTimestamp :
  behaves message_event any_stop (feGetCurrentTimestamp pg env).
Proof. unfold feGetCurrentTimestamp. behaves_steps. Qed.

#[local] Hint Resolve message_sendFeedback message_feGetCurrentTimestamp
  : worker.

(** Handling a message makes none of the calls of the loop around it. *)
Lemma message_process_message (rc : Z) (copybuf : list byte) :
  behaves message_event any_stop (process_message pg host env rc copybuf).
Proof.
  unfold process_message, keepalive, waldata, recvint64, read_byte.
  behaves_steps.
Qed.

Lemma message_is_loop_event (e : event) : message_event e -> loop_event e.
Proof. destruct e; cbn; auto. Qed.

Lemma loop_process_message (rc : Z) (copybuf : list byte) :
  behaves loop_event any_stop (process_message pg host env rc copybuf).
Proof.
  apply behaves_weaken with (P := message_event) (Q := any_stop).
  - apply message_is_loop_event.
  - intros s Hs. exact Hs.
  - apply message_process_message.
Qed.

#[local] Hint Resolve loop_process_message : worker.

Lemma loop_receive_loop (frames : list (list byte)) (final : copy_end) :
  behaves loop_event any_stop (receive_loop pg host env frames final).
Proof.
  induction frames as [|data frames IH]; cbn [receive_loop]; behaves_steps.
Qed.

End LoopEvents.

Lemma copy_reads_app (l1 l2 : list event) :
  copy_reads (l1 ++ l2) = copy_reads l1 ++ copy_reads l2.
Proof.
  induction l1 as [|e l1 IH]; [reflexivity|].
  destruct e; cbn [app copy_reads]; rewrite IH; reflexivity.
Qed.

Lemma copy_reads_message (evs : list event) :
  Forall message_event evs -> copy_reads evs = [].
Proof.
  induction 1 as [|e evs He _ IH]; [reflexivity|].
  destruct e; cbn [copy_reads]; solve [exact IH | destruct He].
Qed.

Lemma statements_app (l1 l2 : list event) :
  statements (l1 ++ l2) = statements l1 ++ statements l2.
Proof.
  induction l1 as [|e l1 IH]; [reflexivity|].
  destruct e; cbn [app statements]; rewrite IH; reflexivity.
Qed.

Lemma replay_loop_events (evs : list event) (p c : list (list byte)) :
  Forall loop_event evs -> replay evs p c = (p ++ statements evs, c).
Proof.
  intros H. revert p. induction H as [|e evs He _ IH]; intros p.
  - cbn. rewrite app_nil_r. reflexivity.
  - destruct e; cbn [replay statements]; try solve [apply IH | destruct He].
    rewrite IH, <- app_assoc. reflexivity.
Qed.

Lemma txn_run_app (s : txn_state) (l1 l2 : list event) :
  txn_run s (l1 ++ l2) =
  match txn_run s l1 with
  | Some s' => txn_run s' l2
  | None => None
  end.
Proof.
  revert s. induction l1 as [|e l1 IH]; intros s; [reflexivity|].
  cbn [app txn_run]. destruct (txn_step s e); [apply IH | reflexivity].
Qed.

Lemma txn_run_loop_events (evs : list event) :
  Forall loop_event evs -> txn_run TxnOpen evs = Some TxnOpen.
Proof.
  induction 1 as [|e evs He _ IH]; [reflexivity|].
  destruct e; cbn [txn_run txn_step]; solve [exact IH | destruct He].
Qed.

Section LoopFacts.

Variable pg : pg_headers.
Variable host : endianness.
Variable env : environment.

Lemma length_zero_nil (data : list byte) :
  Z.of_nat (length data) <= 0 -> data = [].
Proof. destruct data; [reflexivity | cbn [length]; lia]. Qed.

(** X7. The inner loop takes the messages of the stream once each and in
    order, and handling a message never reads from the stream itself: the
    results of its [PQgetCopyData] calls are exactly the lengths of the
    first messages, one call per message. When the loop returns it has
    read every message up to the result it returns, which is the final
    result of the stream after all the messages, or the zero of an empty
    message; with no empty message it has read all of them and then the
    final result. When it stops, it stops in the message it read last. *)
Theorem receive_loop_reads_in_order (frames : list (list byte))
  (final : copy_end) (w : world) :
  exists evs,
    trace (snd (receive_loop pg host env frames final w)) = trace w ++ evs /\
    match fst (receive_loop pg host env frames final w) with
    | Ret rc =>
      exists k,
        copy_reads evs =
        map (fun data => Z.of_nat (length data)) (firstn k frames) ++ [rc] /\
        Forall (fun data => data <> []) (firstn k frames) /\
        ((k = length frames /\ rc = copy_end_rc final) \/
         (nth_error frames k = Some [] /\ rc = 0)) /\
        (Forall (fun data => data <> []) frames ->
         rc = copy_end_rc final /\
         copy_reads evs =
         map (fun data => Z.of_nat (length data)) frames ++
         [copy_end_rc final])
    | Stop _ =>
      exists k,
        (k < length frames)%nat /\
        copy_reads evs =
        map (fun data => Z.of_nat (length data)) (firstn (S k) frames) /\
        Forall (fun data => data <> []) (firstn (S k) frames)
    end.
Proof.
  revert w. induction frames as [|data frames IH]; intros w.
  - rewrite receive_loop_nil. exists [Ev_PQgetCopyData (copy_end_rc final)].
    split; [reflexivity|]. cbn [fst]. exists 0%nat.
    split; [reflexivity|]. split; [constructor|].
    split; [left; split; reflexivity|].
    intros _. split; reflexivity.
  - cbn [receive_loop]. run_steps.
    destruct (Z.leb_spec (Z.of_nat (length data)) 0) as [Hle|Hgt].
    + run_steps. cbn [fst snd].
      pose proof (length_zero_nil _ Hle) as ->.
      exists [Ev_PQgetCopyData 0]. split; [reflexivity|].
      exists 0%nat. split; [reflexivity|]. split; [constructor|].
      split; [right; split; reflexivity|].
      intros Hall. inversion Hall as [|? ? Hne _]. contradiction.
    + assert (Hne : data <> []) by (intros ->; cbn in Hgt; lia).
      set (rc := Z.of_nat (length data)) in *.
      set (w1 := extend w [Ev_PQgetCopyData rc]).
      destruct (message_process_message pg host env rc (copybuf_of data) w1)
        as [(evs1 & Et1 & Hevs1) _].
      unfold bind.
      destruct (process_message pg host env rc (copybuf_of data) w1)
        as [[[]|s] w2]; cbn [snd] in Et1.
      * destruct (IH w2) as (evs2 & Et2 & Hreads).
        exists (Ev_PQgetCopyData rc :: evs1 ++ evs2). split.
        -- rewrite Et2, Et1. unfold w1. cbn [extend trace].
           rewrite <- !app_assoc. reflexivity.
        -- assert (Hcr : copy_reads (Ev_PQgetCopyData rc :: evs1 ++ evs2) =
                         rc :: copy_reads evs2).
           { cbn [copy_reads]. rewrite copy_reads_app,
               (copy_reads_message Hevs1). reflexivity. }
           rewrite Hcr.
           destruct (fst (receive_loop pg host env frames final w2))
             as [rc'|s'].
           ++ destruct Hreads as (k & Hk & Hall & Hend & Hfull).
              exists (S k). cbn [firstn map app nth_error length].
              split; [rewrite Hk; reflexivity|].
              split; [constructor; assumption|].
              split.
              ** destruct Hend as [[-> ->]|[Hnth ->]]; [left | right]; auto.
              ** intros Hframes. inversion Hframes as [|? ? _ Hrest].
                 destruct (Hfull Hrest) as [-> ->]. auto.
           ++ destruct Hreads as (k & Hk & Hreads & Hall).
              exists (S k). cbn [length]. split; [lia|].
              cbn [firstn map] in *. rewrite Hreads.
              split; [reflexivity | constructor; assumption].
      * exists (Ev_PQgetCopyData rc :: evs1). split.
        -- cbn [snd]. rewrite Et1. unfold w1. cbn [extend trace].
           rewrite <- app_assoc. reflexivity.
        -- cbn [fst]. exists 0%nat. cbn [length firstn map copy_reads].
           rewrite (copy_reads_message Hevs1).
           split; [lia|]. split; [reflexivity | repeat constructor; exact Hne].
Qed.

(** The shape of a drain cycle that reaches its commit. *)
Lemma drain_cycle_returns (frames : list (list byte)) (final : copy_end)
  (w w' : world) (rc : Z) :
  drain_cycle pg host env frames final w = (Ret rc, w') ->
  exists evs,
    Forall loop_event evs /\
    trace w' = trace w ++ cycle_prologue ++ evs ++ cycle_epilogue.
Proof.
  rewrite drain_cycle_run.
  destruct (loop_receive_loop pg host env frames final
              (extend w cycle_prologue)) as [(evs & Et & Hevs) _].
  destruct (receive_loop pg host env frames final (extend w cycle_prologue))
    as [[rc'|s] w1]; [|discriminate].
  intros [= <- <-]. exists evs. split; [exact Hevs|].
  cbn [snd extend trace] in *. rewrite Et. cbn [extend trace].
  rewrite <- !app_assoc. reflexivity.
Qed.

(** X8. A drain cycle that reaches its commit makes persistent exactly the
    statements it gave to [SPI_execute], in the order it executed them,
    after those committed before: one commit per cycle, whatever
    [SPI_execute] answered for each statement. *)
Theorem drain_cycle_commits_its_statements (frames : list (list byte))
  (final : copy_end) (w w' : world) (rc : Z) :
  drain_cycle pg host env frames final w = (Ret rc, w') ->
  exists evs,
    trace w' = trace w ++ cycle_prologue ++ evs ++ cycle_epilogue /\
    committed_statements (trace w') =
    committed_statements (trace w) ++ statements evs.
Proof.
  intros Hrun. destruct (drain_cycle_returns _ _ _ Hrun) as (evs & Hevs & Et).
  exists evs. split; [exact Et|].
  rewrite Et. unfold committed_statements.
  rewrite replay_app. cbn [cycle_prologue app replay].
  rewrite replay_app, (replay_loop_events _ _ Hevs). cbn [fst snd app].
  reflexivity.
Qed.

End LoopFacts.

(** The cycle of one INSERT followed by no data. *)
Lemma drain_cycle_commits_its_statements_witness :
  let query := ["I"; "N"; "S"]%byte in
  let data := "w"%byte :: repeat x00 24 ++ query in
  let w := initial_world postgres_headers in
  let w' := snd (drain_cycle postgres_headers LittleEndian (fixed_env 0 0 7)
                   [data] CopyNoData w) in
  exists evs,
    trace w' = trace w ++ cycle_prologue ++ evs ++ cycle_epilogue /\
    committed_statements (trace w') =
    committed_statements (trace w) ++ statements evs.
Proof.
  intros query data w w'.
  apply (@drain_cycle_commits_its_statements postgres_headers LittleEndian
           (fixed_env 0 0 7) [data] CopyNoData w w' 0).
  reflexivity.
Defined.

(** ** Batches of statements *)

Lemma strz_app_nul (a b : list byte) :
  Forall (fun c => c <> x00) a -> strz (a ++ x00 :: b) = a.
Proof.
  induction 1 as [|c a Hc _ IH]; [reflexivity|].
  cbn [app strz]. rewrite (byte_eqb_neq Hc), IH. reflexivity.
Qed.

(** X9. The statement of a WalData message is the text after the 25-byte
    header up to the first zero byte: a payload without a zero byte is
    executed whole, and one with a zero byte is cut there. *)
Theorem statement_is_c_string (tag : byte) (hdr text rest : list byte) :
  length hdr = 24%nat ->
  Forall (fun c => c <> x00) text ->
  statement_of_message (tag :: hdr ++ text) = text /\
  statement_of_message (tag :: hdr ++ text ++ x00 :: rest) = text.
Proof.
  intros Hlen Htext. unfold statement_of_message, c_string, copybuf_of.
  assert (Hskip : forall l, skipn 25 ((tag :: hdr ++ l) ++ [x00]) = l ++ [x00]).
  { intros l.
    change (skipn 25 ((tag :: hdr ++ l) ++ [x00]))
      with (skipn 24 ((hdr ++ l) ++ [x00])).
    rewrite <- app_assoc, skipn_app, <- Hlen.
    rewrite skipn_all, Nat.sub_diag. reflexivity. }
  split; rewrite Hskip.
  - apply strz_app_nul, Htext.
  - rewrite <- app_assoc. cbn [app]. apply strz_app_nul, Htext.
Qed.

(** The statement [SEL] followed by a zero byte and more bytes. *)
Lemma statement_is_c_string_witness :
  let text := ["S"; "E"; "L"]%byte in
  statement_of_message ("w"%byte :: repeat x00 24 ++ text) = text /\
  statement_of_message
    ("w"%byte :: repeat x00 24 ++ text ++ x00 :: ["X"; "Y"]%byte) = text.
Proof.
  intros text.
  apply (@statement_is_c_string "w"%byte (repeat x00 24) text ["X"; "Y"]%byte).
  - reflexivity.
  - repeat constructor; discriminate.
Defined.

Section Batches.

Variable pg : pg_headers.
Variable host : endianness.
Variable env : environment.

Lemma process_message_waldata (rc : Z) (data : list byte) (w : world) :
  nth_error data 0 = Some "w"%byte ->
  process_message pg host env rc (copybuf_of data) w =
  waldata pg env rc (copybuf_of data) w.
Proof.
  intros Htag. unfold process_message, read_byte.
  rewrite (nth_error_copybuf _ _ Htag). run_steps.
  change (Byte.eqb "w" "k") with false.
  change (Byte.eqb "w" "w") with true. reflexivity.
Qed.

Lemma receive_loop_waldata (frames : list (list byte)) (final : copy_end)
  (w : world) :
  Forall (fun data => nth_error data 0 = Some "w"%byte /\
                      (26 <= length data)%nat) frames ->
  exists evs,
    receive_loop pg host env frames final w =
    (Ret (copy_end_rc final), extend w evs) /\
    Forall loop_event evs /\
    statements evs = map statement_of_message frames.
Proof.
  intros H. revert w. induction H as [|data frames [Htag Hlen] _ IH]; intros w.
  - rewrite receive_loop_nil. eexists. split; [reflexivity|].
    split; [repeat constructor | reflexivity].
  - assert (Hne : data <> []) by (intros ->; discriminate Htag).
    rewrite receive_loop_cons by exact Hne.
    set (rc := Z.of_nat (length data)).
    destruct (waldata_applied pg env (copybuf_of data)
                (extend w [Ev_PQgetCopyData rc])
                (rc := rc) ltac:(unfold rc; lia)) as (m & Em).
    erewrite run_bind_returned
      by (rewrite process_message_waldata by exact Htag; exact Em).
    destruct (IH (extend (extend w [Ev_PQgetCopyData rc])
                         [Ev_pgstat_report_activity
                            (STATE_RUNNING (c_string (copybuf_of data) 25));
                          Ev_SetCurrentStatementStartTimestamp;
                          Ev_SPI_execute (c_string (copybuf_of data) 25);
                          Ev_ereport m]))
      as (evs & Eloop & Hevs & Hst).
    rewrite Eloop, !extend_extend. eexists. split; [reflexivity|]. split.
    + cbn [app]. repeat (constructor; [exact I|]). exact Hevs.
    + cbn [app statements map]. rewrite Hst. reflexivity.
Qed.

(** X10. A batch made of WalData messages only, each with its header and
    at least one byte of text, is applied whole: every statement is
    executed, in arrival order and whatever [SPI_execute] answers, the
    cycle ends in one commit that makes them persistent after those
    committed before, and the tracked positions are untouched. *)
Theorem waldata_batch_committed (frames : list (list byte))
  (final : copy_end) (w : world) :
  Forall (fun data => nth_error data 0 = Some "w"%byte /\
                      (26 <= length data)%nat) frames ->
  exists w',
    drain_cycle pg host env frames final w = (Ret (copy_end_rc final), w') /\
    statements_since w w' = map statement_of_message frames /\
    committed_statements (trace w') =
    committed_statements (trace w) ++ map statement_of_message frames /\
    output_written_lsn w' = output_written_lsn w /\
    output_fsync_lsn w' = output_fsync_lsn w.
Proof.
  intros Hframes.
  destruct (receive_loop_waldata final (extend w cycle_prologue) Hframes)
    as (evs & Eloop & Hevs & Hst).
  rewrite drain_cycle_run, Eloop, !extend_extend.
  eexists. split; [reflexivity|]. repeat split.
  - unfold statements_since. cbn [extend trace].
    rewrite skipn_app, skipn_all, Nat.sub_diag. cbn [skipn app].
    rewrite !statements_app, Hst. cbn. apply app_nil_r.
  - cbn [extend trace]. unfold committed_statements.
    rewrite replay_app. cbn [cycle_prologue app replay].
    rewrite replay_app, (replay_loop_events _ _ Hevs). cbn [fst snd app].
    rewrite Hst. reflexivity.
Qed.

End Batches.

(** A batch of two statements, the second of which fails. *)
Lemma waldata_batch_committed_witness :
  let d1 := "w"%byte :: repeat x00 24 ++ ["A"%byte] in
  let d2 := "w"%byte :: repeat x00 24 ++ ["B"; "C"]%byte in
  let w := initial_world postgres_headers in
  exists w',
    drain_cycle postgres_headers LittleEndian (fixed_env 0 0 (-1))
      [d1; d2] CopyNoData w = (Ret (copy_end_rc CopyNoData), w') /\
    statements_since w w' = map statement_of_message [d1; d2] /\
    committed_statements (trace w') =
    committed_statements (trace w) ++ map statement_of_message [d1; d2] /\
    output_written_lsn w' = output_written_lsn w /\
    output_fsync_lsn w' = output_fsync_lsn w.
Proof.
  intros d1 d2 w.
  apply (@waldata_batch_committed postgres_headers LittleEndian
           (fixed_env 0 0 (-1)) [d1; d2] CopyNoData w).
  repeat constructor; cbn; lia.
Defined.

(** ** Transaction discipline *)

Lemma txn_safe_ret (A : Type) (a : A) : txn_safe (ret a).
Proof. intros w. exists []. cbn. rewrite app_nil_r. auto. Qed.

Lemma txn_safe_gets (A : Type) (f : world -> A) : txn_safe (gets f).
Proof. intros w. exists []. cbn. rewrite app_nil_r. auto. Qed.

Lemma txn_safe_stop_with (A : Type) (s : stop) : txn_safe (@stop_with A s).
Proof.
  intros w. exists []. cbn. rewrite app_nil_r. split; [reflexivity|].
  discriminate.
Qed.

Lemma txn_safe_proc_exit (A : Type) (status : Z) :
  txn_safe (@proc_exit A status).
Proof. apply txn_safe_stop_with. Qed.

Lemma txn_safe_modify (f : world -> world) :
  (forall w, trace (f w) = trace w) -> txn_safe (modify f).
Proof.
  intros Hf w. exists []. cbn. rewrite Hf, app_nil_r. auto.
Qed.

Lemma txn_safe_emit (e : event) :
  txn_step TxnIdle e = Some TxnIdle -> txn_safe (emit e).
Proof.
  intros He w. exists [e]. cbn. rewrite He. auto.
Qed.

Lemma txn_safe_bind (A B : Type) (m : M A) (k : A -> M B) :
  txn_safe m -> (forall a, txn_safe (k a)) -> txn_safe (bind m k).
Proof.
  intros Hm Hk w. unfold bind. destruct (Hm w) as (evs & Et & Hrun).
  destruct (m w) as [[a|s] w1]; cbn [fst snd] in *.
  - destruct (Hk a w1) as (evs' & Et' & Hrun').
    exists (evs ++ evs'). split.
    + rewrite Et', Et, app_assoc. reflexivity.
    + rewrite txn_run_app, Hrun. exact Hrun'.
  - exists evs. split; assumption.
Qed.

(** Walks through an action for [txn_safe]. *)
Ltac txn_steps :=
  repeat first
    [ solve [auto with worker nocore]
    | apply txn_safe_bind; [|intros ?]
    | apply txn_safe_ret
    | apply txn_safe_gets
    | apply txn_safe_emit; reflexivity
    | apply txn_safe_proc_exit
    | apply txn_safe_stop_with
    | apply txn_safe_modify; intros ?; reflexivity
    | match goal with
      | |- txn_safe (if ?c then _ else _) => destruct c
      | |- txn_safe (let '(_, _) := ?p in _) => destruct p
      | |- txn_safe (match ?x with _ => _ end) => destruct x
      end ].

Section Transactions.

Variable pg : pg_headers.
Variable host : endianness.
Variable env : environment.

Lemma txn_safe_drain_cycle (frames : list (list byte)) (final : copy_end) :
  txn_safe (drain_cycle pg host env frames final).
Proof.
  intros w. rewrite drain_cycle_run.
  destruct (loop_receive_loop pg host env frames final
              (extend w cycle_prologue)) as [(evs & Et & Hevs) _].
  destruct (receive_loop pg host env frames final (extend w cycle_prologue))
    as [[rc|s] w1]; cbn [fst snd] in *.
  - exists (cycle_prologue ++ evs ++ cycle_epilogue). split.
    + cbn [extend trace]. rewrite Et. cbn [extend trace].
      rewrite <- !app_assoc. reflexivity.
    + cbn [cycle_prologue app txn_run txn_step].
      rewrite txn_run_app, (txn_run_loop_events Hevs). reflexivity.
  - exists (cycle_prologue ++ evs). split.
    + rewrite Et. cbn [extend trace]. rewrite <- app_assoc. reflexivity.
    + cbn [cycle_prologue app txn_run txn_step].
      rewrite (txn_run_loop_events Hevs). discriminate.
Qed.

Lemma txn_safe_deliver_all (l : list signal) : txn_safe (deliver_all l).
Proof.
  induction l as [|s l IH]; cbn [deliver_all];
    unfold deliver, receiver_raw_sighup, receiver_raw_sigterm,
      set_got_sighup, set_got_sigterm; txn_steps.
Qed.

#[local] Hint Resolve txn_safe_drain_cycle txn_safe_deliver_all : worker.

Lemma txn_safe_main_iteration (wk : wakeup) :
  txn_safe (main_iteration pg host env wk).
Proof.
  unfold main_iteration, wait_for_data, feGetCurrentTimestamp,
    set_got_sighup.
  txn_steps.
Qed.

#[local] Hint Resolve txn_safe_main_iteration : worker.

Lemma txn_safe_main_loop (script : list wakeup) :
  txn_safe (main_loop pg host env script).
Proof.
  induction script as [|wk script IH]; cbn [main_loop]; txn_steps.
Qed.

#[local] Hint Resolve txn_safe_main_loop : worker.

Lemma txn_safe_receiver_raw_main (s : session) :
  txn_safe (receiver_raw_main pg host env s).
Proof. unfold receiver_raw_main. txn_steps. Qed.

(** X11. In every session the worker keeps its transaction discipline: a
    transaction is begun only when none is open and committed only when
    one is, and SPI and the snapshot stack are used only inside a
    transaction. While the worker is still looping no transaction is left
    open between passes; a process exit may leave the one of the current
    drain cycle open. *)
Theorem transactions_well_bracketed (s : session) :
  let run := receiver_raw_main pg host env s (initial_world pg) in
  match fst run with
  | Ret _ => txn_run TxnIdle (trace (snd run)) = Some TxnIdle
  | Stop _ => txn_run TxnIdle (trace (snd run)) <> None
  end.
Proof.
  intros run. unfold run.
  destruct (txn_safe_receiver_raw_main s (initial_world pg))
    as (evs & Et & Hrun).
  rewrite Et. exact Hrun.
Qed.

End Transactions.

(** ** The timeout of the blocking wait *)

Section SelectTimeout.

Variable pg : pg_headers.
Variable host : endianness.
Variable env : environment.
Variable S : Z -> Z -> Prop.

(** What the timeout computed from a reading of the clock satisfies. *)
Hypothesis timeout_ok :
  forall h,
    let now := timestamp_of_timeval pg (gettimeofday env h) in
    let '(secs, usecs) := feTimestampDifference pg now 0 in
    S (if secs <=? 0 then 1 else secs) usecs.

Lemma wait_for_data_run (wk : wakeup) (w : world) :
  wait_for_data pg env wk w =
  let now := timestamp_of_timeval pg (gettimeofday env (trace w)) in
  let diff := feTimestampDifference pg now 0 in
  wait_from_select wk (if fst diff <=? 0 then 1 else fst diff) (snd diff)
                   (extend w [Ev_gettimeofday]).
Proof.
  unfold wait_for_data, feGetCurrentTimestamp. cbv zeta.
  change ((0 >? 0) && (0 <? 0)) with false. cbv iota.
  run_steps.
  destruct (feTimestampDifference pg
              (timestamp_of_timeval pg (gettimeofday env (trace w))) 0)
    as [secs usecs].
  reflexivity.
Qed.

Lemma loop_event_select_with (e : event) : loop_event e -> select_with S e.
Proof. destruct e; cbn; solve [auto | intros []]. Qed.

Lemma select_receive_loop (frames : list (list byte)) (final : copy_end) :
  behaves (select_with S) any_stop (receive_loop pg host env frames final).
Proof.
  apply behaves_weaken with (P := loop_event) (Q := any_stop).
  - apply loop_event_select_with.
  - intros s Hs. exact Hs.
  - apply loop_receive_loop.
Qed.

Lemma select_deliver_all (l : list signal) :
  behaves (select_with S) any_stop (deliver_all l).
Proof.
  induction l as [|s l IH]; cbn [deliver_all];
    unfold deliver, receiver_raw_sighup, receiver_raw_sigterm,
      set_got_sighup, set_got_sigterm; behaves_steps.
Qed.

#[local] Hint Resolve select_receive_loop select_deliver_all : worker.

Lemma select_wait_from_select (wk : wakeup) (tv_sec tv_usec : Z) :
  S tv_sec tv_usec ->
  behaves (select_with S) any_stop (wait_from_select wk tv_sec tv_usec).
Proof.
  intros HS. unfold wait_from_select.
  apply behaves_bind; [apply behaves_emit; exact HS|].
  intros _. cbv zeta. behaves_steps.
Qed.

Lemma select_wait_for_data (wk : wakeup) :
  behaves (select_with S) any_stop (wait_for_data pg env wk).
Proof.
  intros w. rewrite wait_for_data_run. cbv zeta.
  pose proof (timeout_ok (trace w)) as HS. cbv zeta in HS.
  destruct (feTimestampDifference pg
              (timestamp_of_timeval pg (gettimeofday env (trace w))) 0)
    as [secs usecs]. cbn [fst snd].
  destruct (select_wait_from_select wk HS (extend w [Ev_gettimeofday]))
    as [(evs & Et & Hevs) Hstop].
  split; [|exact Hstop].
  exists (Ev_gettimeofday :: evs). split.
  - rewrite Et. cbn [extend trace]. rewrite <- app_assoc. reflexivity.
  - constructor; [exact I | exact Hevs].
Qed.

#[local] Hint Resolve select_wait_for_data : worker.

Lemma select_main_iteration (wk : wakeup) :
  behaves (select_with S) any_stop (main_iteration pg host env wk).
Proof.
  unfold main_iteration, drain_cycle, set_got_sighup. behaves_steps.
Qed.

#[local] Hint Resolve select_main_iteration : worker.

Lemma select_main_loop (script : list wakeup) :
  behaves (select_with S) any_stop (main_loop pg host env script).
Proof.
  induction script as [|wk script IH]; cbn [main_loop]; behaves_steps.
Qed.

#[local] Hint Resolve select_main_loop : worker.

Lemma select_receiver_raw_main (s : session) :
  behaves (select_with S) any_stop (receiver_raw_main pg host env s).
Proof. unfold receiver_raw_main. behaves_steps. Qed.

End SelectTimeout.

(** X12. Whatever the clock shows, every [select] of a session is given a
    timeout of at least one second with a microsecond part below one
    million: the worker never spins on the socket. *)
Theorem select_sleeps_at_least_a_second (host : endianness)
  (env : environment) (s : session) (w : world) :
  exists evs,
    trace (snd (receiver_raw_main postgres_headers host env s w)) =
    trace w ++ evs /\
    Forall (select_with at_least_a_second) evs.
Proof.
  apply (@select_receiver_raw_main postgres_headers host env
           at_least_a_second).
  intros h. cbv zeta.
  pose proof (feTimestampDifference_bounds
                (timestamp_of_timeval postgres_headers (gettimeofday env h)) 0)
    as Hb.
  destruct (feTimestampDifference postgres_headers _ 0) as [secs usecs].
  destruct Hb as (Hs & Hu & _). unfold at_least_a_second.
  destruct (Z.leb_spec secs 0); split; lia.
Qed.

(** X13. When the clock never shows a time before 2000-01-01, every
    [select] of a session is given a timeout of exactly one second: the
    wake-up targets are zero, so the computed difference is not positive
    and the one-second floor applies. *)
Theorem select_sleeps_one_second (host : endianness)
  (env : environment) (s : session) (w : world) :
  (forall h, 0 <= timestamp_of_timeval postgres_headers (gettimeofday env h)) ->
  exists evs,
    trace (snd (receiver_raw_main postgres_headers host env s w)) =
    trace w ++ evs /\
    Forall (select_with one_second) evs.
Proof.
  intros Hclock.
  apply (@select_receiver_raw_main postgres_headers host env one_second).
  intros h. cbv zeta. specialize (Hclock h).
  pose proof (timestamp_of_timeval_range postgres_headers
                (gettimeofday env h)) as Hr.
  set (now := timestamp_of_timeval postgres_headers (gettimeofday env h)) in *.
  unfold feTimestampDifference.
  rewrite to_int64_id
    by (unfold int64_range in *;
        change (2 ^ 63) with 9223372036854775808 in *; lia).
  destruct (Z.leb_spec (0 - now) 0); [|lia].
  split; reflexivity.
Qed.

(** A pass that receives nothing and waits, with the clock at the start
    of 2001. *)
Lemma select_sleeps_one_second_witness :
  let wk := {| latch_signals := []; latch_rc := 1;
               copy_frames := []; copy_final := CopyNoData;
               select_signals := []; select_r := 0; select_eintr := false;
               consume_rc := 1 |} in
  let s := {| connection_ok := true; copy_both := true; wakeups := [wk] |} in
  let w := initial_world postgres_headers in
  exists evs,
    trace (snd (receiver_raw_main postgres_headers LittleEndian
                  (fixed_env 978307200 0 7) s w)) =
    trace w ++ evs /\
    Forall (select_with one_second) evs.
Proof.
  intros wk s w.
  apply (@select_sleeps_one_second LittleEndian (fixed_env 978307200 0 7) s w).
  intros h. cbn. lia.
Defined.

(* ===================================================================== *)
(** * Further properties: feedback, keepalives and the main loop *)
(* ===================================================================== *)

Lemma to_uint64_to_int64 (x : Z) : to_uint64 (to_int64 x) = to_uint64 x.
Proof.
  unfold to_uint64, to_int64.
  change (2 ^ 63) with 9223372036854775808.
  change (2 ^ 64) with 18446744073709551616.
  Z.div_mod_to_equations. lia.
Qed.

Section FeedbackFacts.

Variable pg : pg_headers.
Variable host : endianness.
Variable env : environment.

(** X14. [sendFeedback] always returns, having handed libpq exactly one
    34-byte packet. It returns true exactly when [PQputCopyData] gave a
    positive result and [PQflush] gave zero; [PQflush] is called only
    after a successful [PQputCopyData]; every failure is logged; and the
    tracked positions are left as they were. *)
Theorem sendFeedback_result (now : Z) (w : world) :
  let message :=
    feedback_message pg host (output_written_lsn w) (output_fsync_lsn w) now in
  let confirming :=
    Ev_ereport (LogConfirming
                  (to_uint32 (Z.shiftr (output_written_lsn w) 32))
                  (to_uint32 (output_written_lsn w))
                  (to_uint32 (Z.shiftr (output_fsync_lsn w) 32))
                  (to_uint32 (output_fsync_lsn w))) in
  let put := PQputCopyData env (trace w ++ [confirming]) message in
  let flush :=
    PQflush env (trace w ++ [confirming; Ev_PQputCopyData message]) in
  let sent := (0 <? put) && (flush =? 0) in
  length message = 34%nat /\
  sendFeedback pg host env now w =
  (Ret sent,
   extend w ([confirming; Ev_PQputCopyData message] ++
             (if 0 <? put then [Ev_PQflush] else []) ++
             (if sent then [] else [Ev_ereport LogFeedbackFailed]))).
Proof.
  intros message confirming put flush sent.
  split; [apply feedback_message_length|].
  unfold sendFeedback. run_steps. fold message. fold confirming. fold put.
  unfold sent. destruct (Z.leb_spec put 0) as [Hle|Hgt].
  - destruct (Z.ltb_spec 0 put) as [Hlt|_]; [lia|]. run_steps. reflexivity.
  - destruct (Z.ltb_spec 0 put) as [_|Hge]; [|lia]. run_steps. fold flush.
    destruct (flush =? 0); cbn [negb andb]; run_steps; reflexivity.
Qed.

(** X15. The packet built by [sendFeedback] reads back field by field
    with [fe_recvint64]: the tag ['r'], then the written position, the
    flushed position, [InvalidXLogRecPtr] and the timestamp, each as the
    64-bit value that was encoded, then the zero reply-request byte. *)
Theorem feedback_message_decodes (written fsync now : Z) :
  let message := feedback_message pg host written fsync now in
  nth_error message 0 = Some "r"%byte /\
  fe_recvint64 host message 1 = Some (to_int64 written) /\
  fe_recvint64 host message 9 = Some (to_int64 fsync) /\
  fe_recvint64 host message 17 = Some (to_int64 (InvalidXLogRecPtr pg)) /\
  fe_recvint64 host message 25 = Some (to_int64 now) /\
  nth_error message 33 = Some x00 /\
  to_uint64 (to_int64 written) = to_uint64 written /\
  to_uint64 (to_int64 fsync) = to_uint64 fsync.
Proof.
  intros message. unfold message. rewrite feedback_message_layout.
  set (inv := InvalidXLogRecPtr pg).
  repeat split; try apply to_uint64_to_int64.
  - exact (fe_recvint64_be64 host ["r"%byte]
             (be64 fsync ++ be64 inv ++ be64 now ++ [x00]) written).
  - exact (fe_recvint64_be64 host ("r"%byte :: be64 written)
             (be64 inv ++ be64 now ++ [x00]) fsync).
  - exact (fe_recvint64_be64 host ("r"%byte :: be64 written ++ be64 fsync)
             (be64 now ++ [x00]) inv).
  - exact (fe_recvint64_be64 host
             ("r"%byte :: be64 written ++ be64 fsync ++ be64 inv)
             [x00] now).
Qed.

End FeedbackFacts.

Section KeepaliveFacts.

Variable pg : pg_headers.
Variable host : endianness.
Variable env : environment.

(** X16. A complete keepalive whose reply flag is zero only moves the
    tracker: the positions become the maximum of the position it carries
    and the one tracked, nothing is sent or logged, and the loop goes on
    with the next message. *)
Theorem keepalive_without_reply (data : list byte)
  (frames : list (list byte)) (final : copy_end) (w : world) (walEnd : Z) :
  nth_error data 0 = Some "k"%byte ->
  (18 <= length data)%nat ->
  fe_recvint64 host (copybuf_of data) 1 = Some walEnd ->
  nth_error data 17 = Some x00 ->
  receive_loop pg host env (data :: frames) final w =
  receive_loop pg host env frames final
    (extend (observe (to_uint64 walEnd) w)
            [Ev_PQgetCopyData (Z.of_nat (length data))]).
Proof.
  intros Htag Hlen Hpos Hflag.
  assert (Hne : data <> []) by (intros ->; discriminate Htag).
  rewrite receive_loop_cons by exact Hne.
  set (rc := Z.of_nat (length data)).
  erewrite run_bind_returned; [reflexivity|].
  unfold process_message, read_byte.
  rewrite (nth_error_copybuf _ _ Htag). run_steps.
  change (Byte.eqb "k" "k") with true. cbv iota.
  unfold keepalive, recvint64, read_byte. rewrite Hpos. run_steps.
  change (Z.of_nat (1 + 8 + 8) + 1) with 18.
  change (1 + 8 + 8)%nat with 17%nat.
  destruct (Z.ltb_spec rc 18) as [Hlt|_]; [unfold rc in Hlt; lia|].
  rewrite (nth_error_copybuf _ _ Hflag). run_steps.
  change (Byte.eqb x00 x00) with true. cbn [negb]. run_steps.
  rewrite observe_extend. reflexivity.
Qed.

End KeepaliveFacts.

(** A keepalive for position 500 with the reply flag clear. *)
Lemma keepalive_without_reply_witness :
  let data := "k"%byte :: be64 500 ++ repeat x00 8 ++ [x00] in
  let w := initial_world postgres_headers in
  receive_loop postgres_headers LittleEndian (fixed_env 0 0 7)
    [data] CopyNoData w =
  receive_loop postgres_headers LittleEndian (fixed_env 0 0 7)
    [] CopyNoData
    (extend (observe (to_uint64 500) w)
            [Ev_PQgetCopyData (Z.of_nat (length data))]).
Proof.
  intros data w.
  apply (@keepalive_without_reply postgres_headers LittleEndian
           (fixed_env 0 0 7) data [] CopyNoData w 500).
  - reflexivity.
  - cbn. lia.
  - vm_compute. reflexivity.
  - reflexivity.
Defined.

(** ** Passes of the main loop *)

Lemma deliver_all_run (l : list signal) (w : world) :
  deliver_all l w =
  (Ret tt,
   mkWorld (output_written_lsn w) (output_fsync_lsn w)
           (got_sigterm w || existsb is_sigterm l)
           (got_sighup w || existsb is_sighup l)
           (trace w ++ repeat Ev_SetLatch (length l))).
Proof.
  revert w. induction l as [|s l IH]; intros w.
  - destruct w. cbn. rewrite !orb_false_r, app_nil_r. reflexivity.
  - cbn [deliver_all]. unfold bind.
    destruct s; cbn [deliver]; unfold receiver_raw_sighup,
      receiver_raw_sigterm, set_got_sighup, set_got_sigterm; run_steps;
      rewrite IH; cbn; rewrite <- app_assoc;
      repeat f_equal; destruct (got_sigterm w), (got_sighup w); reflexivity.
Qed.

Section Passes.

Variable pg : pg_headers.
Variable host : endianness.
Variable env : environment.

(** A pass up to the test of [got_sigterm]. *)
Lemma main_iteration_wake (wk : wakeup) (w : world) :
  let sighup := got_sighup w || existsb is_sighup (latch_signals wk) in
  let sigterm := got_sigterm w || existsb is_sigterm (latch_signals wk) in
  let w1 := mkWorld (output_written_lsn w) (output_fsync_lsn w) sigterm false
                    (trace w ++ wake_events (latch_signals wk) sighup) in
  main_iteration pg host env wk w =
  if sigterm then (Stop (ProcExit 0), extend w1 [Ev_ereport LogSigterm])
  else if negb (Z.land (latch_rc wk) (WL_POSTMASTER_DEATH pg) =? 0)
       then (Stop (ProcExit 1), w1)
       else
         bind (drain_cycle pg host env (copy_frames wk) (copy_final wk))
              (fun rc =>
                 if rc =? 0 then wait_for_data pg env wk
                 else if rc =? -1 then
                   emit (Ev_ereport LogStreamEnded) ;; ret LoopBreak
                 else if rc =? -2 then
                   emit (Ev_ereport LogReceiveFailed) ;; proc_exit 1
                 else ret LoopContinue) w1.
Proof.
  intros sighup sigterm w1. unfold main_iteration. run_steps.
  unfold bind at 1. rewrite deliver_all_run. cbv iota beta. run_steps.
  cbn [got_sighup got_sigterm]. fold sighup sigterm.
  match goal with
  | |- bind ?hup _ ?W = _ => assert (Hhup : hup W = (Ret tt, w1))
  end.
  { unfold w1, wake_events.
    destruct sighup; unfold set_got_sighup; run_steps; unfold extend;
      cbn [output_written_lsn output_fsync_lsn got_sigterm got_sighup trace];
      rewrite <- ?app_assoc; reflexivity. }
  erewrite run_bind_returned by exact Hhup. run_steps.
  change (got_sigterm w1) with sigterm.
  destruct sigterm; [run_steps; reflexivity|].
  destruct (negb _); [run_steps; reflexivity | reflexivity].
Qed.


(** X17. A session whose connection is not established, or whose
    START_REPLICATION does not give a COPY_BOTH result, ends with exit
    status 1 before the main loop: it never waits on the latch, begins no
    transaction and reads nothing from the stream, whatever would have
    arrived. *)
Theorem startup_failure_exits (s : session) (w : world) :
  connection_ok s = false \/ copy_both s = false ->
  exists evs,
    receiver_raw_main pg host env s w = (Stop (ProcExit 1), extend w evs) /\
    Forall startup_event evs.
Proof.
  intros Hfail. unfold receiver_raw_main. run_steps.
  destruct (connection_ok s); cbn [negb].
  - destruct Hfail as [Hc|Hb]; [discriminate Hc|]. rewrite Hb. cbn [negb].
    run_steps. eexists. split; [reflexivity | repeat constructor].
  - run_steps. eexists. split; [reflexivity | repeat constructor].
Qed.

(** X18. A SIGTERM delivered while the worker waits on its latch ends the
    process with status 0 in that pass, after the log line "processed
    SIGTERM": no transaction is begun and the stream is not read, even if
    messages are waiting or the postmaster has died. *)
Theorem sigterm_on_wake (wk : wakeup) (script : list wakeup) (w : world) :
  got_sigterm w = false ->
  existsb is_sigterm (latch_signals wk) = true ->
  main_loop pg host env (wk :: script) w =
  (Stop (ProcExit 0), extend (after_wake wk w) [Ev_ereport LogSigterm]) /\
  Forall outer_event
    (wake_events (latch_signals wk)
       (got_sighup w || existsb is_sighup (latch_signals wk))).
Proof.
  intros Hterm Hsig. split.
  - cbn [main_loop]. run_steps. rewrite Hterm.
    apply run_bind_stopped. rewrite main_iteration_wake. cbv zeta.
    rewrite Hterm, Hsig. cbn [orb]. unfold after_wake.
    rewrite Hterm, Hsig. reflexivity.
  - unfold wake_events. repeat (apply Forall_app; split).
    + repeat constructor.
    + apply Forall_forall. intros e He. apply repeat_spec in He.
      subst e. exact I.
    + repeat constructor.
    + destruct (_ || _); repeat constructor.
Qed.

(** X19. When the latch wait reports the death of the postmaster and no
    SIGTERM is pending, the process exits with status 1 at once: no
    transaction is begun and the stream is not read. *)
Theorem postmaster_death_exits (wk : wakeup) (script : list wakeup)
  (w : world) :
  got_sigterm w = false ->
  existsb is_sigterm (latch_signals wk) = false ->
  Z.land (latch_rc wk) (WL_POSTMASTER_DEATH pg) <> 0 ->
  main_loop pg host env (wk :: script) w =
  (Stop (ProcExit 1), after_wake wk w).
Proof.
  intros Hterm Hsig Hdead.
  cbn [main_loop]. run_steps. rewrite Hterm.
  apply run_bind_stopped. rewrite main_iteration_wake. cbv zeta.
  rewrite Hterm, Hsig. cbn [orb].
  apply Z.eqb_neq in Hdead. rewrite Hdead. cbn [negb].
  unfold after_wake. rewrite Hterm, Hsig. reflexivity.
Qed.

(** X20. When the inner loop breaks on the end of the COPY stream (-1) or
    on a receive failure (-2), the batch is committed first; then the
    worker logs the condition and the process exits, with status 0 for the
    end of the stream and status 1 for the failure. Later passes do not
    happen. *)
Theorem stream_end_commits_then_exits (wk : wakeup) (script : list wakeup)
  (w w2 : world) (rc : Z) :
  got_sigterm w = false ->
  existsb is_sigterm (latch_signals wk) = false ->
  Z.land (latch_rc wk) (WL_POSTMASTER_DEATH pg) = 0 ->
  receive_loop pg host env (copy_frames wk) (copy_final wk)
    (extend (after_wake wk w) cycle_prologue) = (Ret rc, w2) ->
  rc = -1 \/ rc = -2 ->
  main_loop pg host env (wk :: script) w =
  (Stop (ProcExit (if rc =? -1 then 0 else 1)),
   extend w2 (cycle_epilogue ++
              [Ev_ereport (if rc =? -1 then LogStreamEnded
                           else LogReceiveFailed)])).
Proof.
  intros Hterm Hsig Halive Hloop Hrc.
  assert (Hdrain :
    drain_cycle pg host env (copy_frames wk) (copy_final wk) (after_wake wk w)
    = (Ret rc, extend w2 cycle_epilogue))
    by (rewrite drain_cycle_run, Hloop; reflexivity).
  assert (Hiter :
    main_iteration pg host env wk w =
    bind (drain_cycle pg host env (copy_frames wk) (copy_final wk))
         (fun rc =>
            if rc =? 0 then wait_for_data pg env wk
            else if rc =? -1 then
              emit (Ev_ereport LogStreamEnded) ;; ret LoopBreak
            else if rc =? -2 then
              emit (Ev_ereport LogReceiveFailed) ;; proc_exit 1
            else ret LoopContinue) (after_wake wk w)).
  { rewrite main_iteration_wake. cbv zeta. rewrite Hterm, Hsig, Halive.
    cbn [orb Z.eqb negb]. unfold after_wake. rewrite Hterm, Hsig.
    reflexivity. }
  erewrite run_bind_returned in Hiter by exact Hdrain.
  cbn [main_loop]. run_steps. rewrite Hterm.
  destruct Hrc as [-> | ->]; cbn [Z.eqb Pos.eqb] in *;
    revert Hiter; run_steps; intros Hiter.
  - erewrite run_bind_returned by exact Hiter. reflexivity.
  - erewrite run_bind_stopped by exact Hiter. reflexivity.
Qed.

End Passes.

(** A session that fails to connect. *)
Lemma startup_failure_exits_witness :
  let s := {| connection_ok := false; copy_both := true; wakeups := [] |} in
  let w := initial_world postgres_headers in
  exists evs,
    receiver_raw_main postgres_headers LittleEndian (fixed_env 0 0 7) s w =
    (Stop (ProcExit 1), extend w evs) /\
    Forall startup_event evs.
Proof.
  intros s w.
  apply (@startup_failure_exits postgres_headers LittleEndian
           (fixed_env 0 0 7) s w).
  left. reflexivity.
Defined.

(** A pass woken by SIGHUP and SIGTERM while a message is waiting and the
    postmaster is reported dead. *)
Lemma sigterm_on_wake_witness :
  let wk := {| latch_signals := [SIGHUP; SIGTERM]; latch_rc := 16;
               copy_frames := [["x"%byte]]; copy_final := CopyNoData;
               select_signals := []; select_r := 0; select_eintr := false;
               consume_rc := 1 |} in
  let w := initial_world postgres_headers in
  main_loop postgres_headers LittleEndian (fixed_env 0 0 7) [wk] w =
  (Stop (ProcExit 0), extend (after_wake wk w) [Ev_ereport LogSigterm]) /\
  Forall outer_event
    (wake_events (latch_signals wk)
       (got_sighup w || existsb is_sighup (latch_signals wk))).
Proof.
  intros wk w.
  apply (@sigterm_on_wake postgres_headers LittleEndian (fixed_env 0 0 7)
           wk [] w); reflexivity.
Defined.

(** A pass woken by the death of the postmaster. *)
Lemma postmaster_death_exits_witness :
  let wk := {| latch_signals := []; latch_rc := 17;
               copy_frames := [["x"%byte]]; copy_final := CopyNoData;
               select_signals := []; select_r := 0; select_eintr := false;
               consume_rc := 1 |} in
  let w := initial_world postgres_headers in
  main_loop postgres_headers LittleEndian (fixed_env 0 0 7) [wk; wk] w =
  (Stop (ProcExit 1), after_wake wk w).
Proof.
  intros wk w.
  apply (@postmaster_death_exits postgres_headers LittleEndian
           (fixed_env 0 0 7) wk [wk] w); try reflexivity.
  discriminate.
Defined.

(** A pass that finds the stream failed after one statement. *)
Lemma stream_end_commits_then_exits_witness :
  let data := "w"%byte :: repeat x00 24 ++ ["A"%byte] in
  let wk := {| latch_signals := []; latch_rc := 1;
               copy_frames := [data]; copy_final := CopyFailed;
               select_signals := []; select_r := 0; select_eintr := false;
               consume_rc := 1 |} in
  let env := fixed_env 0 0 7 in
  let w := initial_world postgres_headers in
  let w2 := snd (receive_loop postgres_headers LittleEndian env [data]
                   CopyFailed (extend (after_wake wk w) cycle_prologue)) in
  main_loop postgres_headers LittleEndian env [wk; wk] w =
  (Stop (ProcExit (if -2 =? -1 then 0 else 1)),
   extend w2 (cycle_epilogue ++
              [Ev_ereport (if -2 =? -1 then LogStreamEnded
                           else LogReceiveFailed)])).
Proof.
  intros data wk env w w2.
  apply (@stream_end_commits_then_exits postgres_headers LittleEndian env
           wk [wk] w w2 (-2)); try reflexivity.
  right. reflexivity.
Defined.

(** X22. A keepalive message of eight to seventeen bytes, too short to
    hold its reply flag, ends the process with status 1 after the log
    line "streaming header too small" with the length received; the
    tracker has by then been updated from the eight bytes after the tag,
    and nothing is sent. *)
Theorem keepalive_truncated_exits (pg : pg_headers) (host : endianness)
  (env : environment) (data : list byte) (frames : list (list byte))
  (final : copy_end) (w : world) :
  nth_error data 0 = Some "k"%byte ->
  (8 <= length data < 18)%nat ->
  let rc := Z.of_nat (length data) in
  exists walEnd,
    fe_recvint64 host (copybuf_of data) 1 = Some walEnd /\
    receive_loop pg host env (data :: frames) final w =
    (Stop (ProcExit 1),
     extend (observe (to_uint64 walEnd) w)
            [Ev_PQgetCopyData rc; Ev_ereport (LogKeepaliveTooSmall rc)]).
Proof.
  intros Htag Hlen rc.
  assert (Hne : data <> []) by (intros ->; discriminate Htag).
  assert (Hbuf : (1 + 8 <= length (copybuf_of data))%nat)
    by (unfold copybuf_of; rewrite length_app; cbn [length]; lia).
  destruct (fe_recvint64_in_bounds host (copybuf_of data) 1 Hbuf)
    as (walEnd & Hrecv).
  exists walEnd. split; [exact Hrecv|].
  rewrite receive_loop_cons by exact Hne. fold rc.
  apply run_bind_stopped.
  unfold process_message, read_byte.
  rewrite (nth_error_copybuf _ _ Htag). run_steps.
  change (Byte.eqb "k" "k") with true. cbv iota.
  unfold keepalive, recvint64. rewrite Hrecv. run_steps.
  change (Z.of_nat (1 + 8 + 8) + 1) with 18.
  destruct (Z.ltb_spec rc 18) as [_|Hge]; [|unfold rc in Hge; lia].
  run_steps. rewrite observe_extend, extend_extend. reflexivity.
Qed.

(** A keepalive cut after its position field. *)
Lemma keepalive_truncated_exits_witness :
  let data := "k"%byte :: be64 500 in
  let w := initial_world postgres_headers in
  exists walEnd,
    fe_recvint64 LittleEndian (copybuf_of data) 1 = Some walEnd /\
    receive_loop postgres_headers LittleEndian (fixed_env 0 0 7)
      [data] CopyNoData w =
    (Stop (ProcExit 1),
     extend (observe (to_uint64 walEnd) w)
            [Ev_PQgetCopyData 9; Ev_ereport (LogKeepaliveTooSmall 9)]).
Proof.
  intros data w.
  apply (@keepalive_truncated_exits postgres_headers LittleEndian
           (fixed_env 0 0 7) data [] CopyNoData w).
  - reflexivity.
  - cbn. lia.
Defined.

(* ===================================================================== *)
(** * Further properties: loading and unloading hook_utility *)
(* ===================================================================== *)

Module HookLifecycleFacts.

Import HookUtility HookLifecycle.

(** X21. Loading the module chains it in front of whatever hook was
    installed and unloading restores that hook: after [_PG_init] the
    server's hook is [dbrestrict_utility]; a statement it does not
    restrict is passed on to the previously installed hook when there was
    one and to [standard_ProcessUtility] otherwise, while a restricted one
    raises the insufficient-privilege error; and [_PG_fini] after
    [_PG_init] leaves the server's hook as it was before loading. *)
Theorem load_chains_and_unload_restores (h : hooks) (dbname username : string)
  (parsetree : Node) (user : string) :
  let loaded := _PG_init h in
  let st := hook_state_of loaded dbname username in
  HookLifecycle.ProcessUtility_hook loaded = Some hook_dbrestrict_utility /\
  dbrestrict_utility st parsetree user =
  (if isRestricted st (fst (statement_of parsetree))
                   (snd (statement_of parsetree)) user
   then Ereport_ERROR ERRCODE_INSUFFICIENT_PRIVILEGE username dbname
   else match HookLifecycle.ProcessUtility_hook h with
        | Some _ => Call_prev_utility_hook
        | None => Call_standard_ProcessUtility
        end) /\
  HookLifecycle.ProcessUtility_hook (_PG_fini loaded) =
  HookLifecycle.ProcessUtility_hook h.
Proof.
  intros loaded st. split; [reflexivity|]. split; [|reflexivity].
  destruct parsetree as [stmt|tag]; cbn.
  - rewrite !HookUtilityFacts.strcmp_eqb.
    destruct (_ && _); [reflexivity|].
    unfold fallback. cbn. destruct (HookLifecycle.ProcessUtility_hook h);
      reflexivity.
  - unfold fallback. cbn. destruct (HookLifecycle.ProcessUtility_hook h);
      reflexivity.
Qed.

End HookLifecycleFacts.
